(** * Match-record engine: replay ingestion, identity resolution, aggregation

    A shallow embedding of [db.py] (the SQLite record store),
    [record_manager.py] (ingestion and identity inference) and [watcher.py]
    (the directory watcher's event handler), with the properties the
    specification states about them.

    Conventions of the embedding.
    - A table is the list of its rows in rowid order; a [SELECT] without
      [ORDER BY] scans it in that order and [fetchone] is the head of the
      result.
    - A TEXT value that may be NULL (a Python [None]) is an [option string];
      strings are byte strings (UTF-8), compared byte-wise as SQLite's BINARY
      collation and Python's [str] order do.
    - [AUTOINCREMENT] ids are unbounded integers: the new id is one more than
      the largest id of the table (the program never deletes a row, so this is
      also SQLite's high-water mark). The 2^63 bound of a rowid is not
      modelled.
    - Columns filled by the clock ([created_at], [parsed_at]) are left out.
    - A REAL value is carried as the integer of its bit pattern; the program
      stores such values and never computes with them. *)

From Stdlib Require Import ZArith String Ascii.
From stdpp Require Import base option list gmap sets strings pretty sorting.

(** ** Python values *)

Definition sql_text := option string.
Definition py_float := Z.

(** Truthiness of a [str | None]: [None] and the empty string are falsy. *)
Definition truthy (v : sql_text) : bool :=
  match v with
  | None => false
  | Some s => negb (String.eqb s "")
  end.

(** [a or b] on such values. *)
Definition py_or (a b : sql_text) : sql_text := if truthy a then a else b.

(** [col = ?] in a WHERE clause: NULL on either side never matches. *)
Definition sql_eq (col param : sql_text) : bool :=
  match col, param with
  | Some c, Some p => String.eqb c p
  | _, _ => false
  end.

(** [v in names] for a Python set of strings. *)
Definition py_in (v : sql_text) (names : gset string) : bool :=
  match v with
  | Some s => bool_decide (s ∈ names)
  | None => false
  end.

(** ** Computations that may raise, over a mutable store *)

Inductive exn : Type :=
  | IntegrityError (msg : string)
  | OSError (msg : string)
  | CallbackError.

Inductive outcome (S A : Type) : Type :=
  | Returned (a : A) (s : S)
  | Raised (e : exn) (s : S).
Arguments Returned {S A} a s.
Arguments Raised {S A} e s.

Definition M (S A : Type) : Type := S → outcome S A.

Global Instance M_ret {S} : MRet (M S) := λ A a s, Returned a s.
Global Instance M_bind {S} : MBind (M S) := λ A B k m s,
  match m s with
  | Returned a s' => k a s'
  | Raised e s' => Raised e s'
  end.
Definition raise {S A} (e : exn) : M S A := λ s, Raised e s.
Definition gets {S A} (f : S → A) : M S A := λ s, Returned (f s) s.
Definition modify {S} (f : S → S) : M S unit := λ s, Returned tt (f s).

(** [for x in l: body]. *)
Fixpoint for_each {S A} (l : list A) (body : A → M S unit) : M S unit :=
  match l with
  | [] => mret tt
  | x :: l' => body x;; for_each l' body
  end.

Definition final_state {S A} (o : outcome S A) : S :=
  match o with Returned _ s => s | Raised _ s => s end.

Definition returned {S A} (o : outcome S A) : option A :=
  match o with Returned a _ => Some a | Raised _ _ => None end.

(** ** Stable sort, as used for ORDER BY and [sorted]

    [sort_by leb l] inserts the elements of [l] one by one from the right, an
    element going before the elements it ties with, so that ties keep their
    order in [l].
    SQL leaves the order of ties open; the theorems below state nothing that
    depends on it. *)

Section Sort.
Context {A : Type} (leb : A → A → bool).

Fixpoint insert_by (x : A) (l : list A) : list A :=
  match l with
  | [] => [x]
  | y :: l' => if leb x y then x :: l else y :: insert_by x l'
  end.

Fixpoint sort_by (l : list A) : list A :=
  match l with
  | [] => []
  | x :: l' => insert_by x (sort_by l')
  end.
End Sort.

(** ** The tables of [SCHEMA_SQL] *)

Record player_row := {
  p_id : Z;
  p_name : string;
  p_is_me : bool
}.

Record alias_row := {
  a_id : Z;
  a_player_id : Z;
  a_alt_name : string
}.

(** The dictionary [_build_game_data] returns and [insert_game] stores. *)
Record game_data := {
  replay_file : string;
  played_at : sql_text;
  duration_seconds : option py_float;
  duration_text : sql_text;
  map_name : sql_text;
  map_tileset : sql_text;
  game_type : sql_text;
  winner_name : sql_text;
  loser_name : sql_text;
  winner_race : sql_text;
  loser_race : sql_text;
  my_result : sql_text
}.

Record game_row := {
  g_id : Z;
  g_data :> game_data
}.

Record game_player_row := {
  gp_id : Z;
  gp_game_id : Z;
  gp_player_id : Z;
  gp_race : sql_text;
  gp_is_winner : bool;
  gp_apm : py_float
}.

Record chat_message_row := {
  cm_id : Z;
  cm_game_id : Z;
  cm_player_id : Z;
  cm_message : sql_text;
  cm_game_time : sql_text;
  cm_frame : Z
}.

Record database := {
  players : list player_row;
  aliases : list alias_row;
  games : list game_row;
  game_players : list game_player_row;
  chat_messages : list chat_message_row
}.

Definition empty_db : database :=
  {| players := []; aliases := []; games := [];
     game_players := []; chat_messages := [] |}.

Definition with_players (d : database) (l : list player_row) : database :=
  {| players := l; aliases := aliases d; games := games d;
     game_players := game_players d; chat_messages := chat_messages d |}.
Definition with_aliases (d : database) (l : list alias_row) : database :=
  {| players := players d; aliases := l; games := games d;
     game_players := game_players d; chat_messages := chat_messages d |}.
Definition with_games (d : database) (l : list game_row) : database :=
  {| players := players d; aliases := aliases d; games := l;
     game_players := game_players d; chat_messages := chat_messages d |}.
Definition with_game_players (d : database) (l : list game_player_row) : database :=
  {| players := players d; aliases := aliases d; games := games d;
     game_players := l; chat_messages := chat_messages d |}.
Definition with_chat_messages (d : database) (l : list chat_message_row) : database :=
  {| players := players d; aliases := aliases d; games := games d;
     game_players := game_players d; chat_messages := l |}.

(** The id an AUTOINCREMENT column gives the next row. *)
Definition next_id (ids : list Z) : Z := (1 + foldr Z.max 0 ids)%Z.

(** The constraints of the schema that the properties below rely on. *)
Record schema_ok (d : database) : Prop := {
  players_id_unique : NoDup (p_id <$> players d);
  players_name_unique : NoDup (p_name <$> players d);
  aliases_alt_name_unique : NoDup (a_alt_name <$> aliases d);
  aliases_player_fk : ∀ a, a ∈ aliases d → a_player_id a ∈ (p_id <$> players d);
  games_replay_file_unique : NoDup (replay_file <$> (g_data <$> games d))
}.

(** ** [Database]: one unit of work per method *)

Module Database.

(** [with self._connect() as conn]: commit when the body returns, roll back
    and re-raise when it raises. *)
Definition _connect {A} (body : M database A) : M database A :=
  λ d, match body d with
       | Returned a d' => Returned a d'
       | Raised e _ => Raised e d
       end.

Definition player_named (name : sql_text) (p : player_row) : bool :=
  sql_eq (Some (p_name p)) name.

Definition alias_named (name : sql_text) (a : alias_row) : bool :=
  sql_eq (Some (a_alt_name a)) name.

Definition get_or_create_player (name : sql_text) : M database Z :=
  _connect (λ d,
    match List.find (player_named name) (players d) with
    | Some p => Returned (p_id p) d
    | None =>
      match List.find (alias_named name) (aliases d) with
      | Some a => Returned (a_player_id a) d
      | None =>
        match name with
        | None => Raised (IntegrityError "NOT NULL constraint failed: players.name") d
        | Some n =>
          let i := next_id (p_id <$> players d) in
          Returned i (with_players d
            (players d ++ [{| p_id := i; p_name := n; p_is_me := false |}]))
        end
      end
    end).

Definition set_player_is_me (name : sql_text) (is_me : bool) : M database unit :=
  _connect (λ d,
    Returned tt (with_players d
      ((λ p, if player_named name p
             then {| p_id := p_id p; p_name := p_name p; p_is_me := is_me |}
             else p) <$> players d))).

(** [SELECT name FROM players WHERE is_me = 1]. *)
Definition select_my_names (d : database) : list string :=
  p_name <$> List.filter p_is_me (players d).

Definition get_my_names : M database (list string) :=
  _connect (λ d, Returned (select_my_names d) d).

(** [INSERT OR IGNORE]: a row that breaks NOT NULL or UNIQUE is skipped; a
    foreign key that does not resolve still fails the statement. *)
Definition add_alias (player_name alt_name : sql_text) : M database unit :=
  player_id ← get_or_create_player player_name;
  _connect (λ d,
    match alt_name with
    | None => Returned tt d
    | Some alt =>
      if existsb (alias_named alt_name) (aliases d) then Returned tt d
      else if bool_decide (player_id ∈ (p_id <$> players d)) then
        Returned tt (with_aliases d
          (aliases d ++ [{| a_id := next_id (a_id <$> aliases d);
                            a_player_id := player_id; a_alt_name := alt |}]))
      else Raised (IntegrityError "FOREIGN KEY constraint failed") d
    end).

(** The join of [aliases] and [players] on [a.player_id = p.id], restricted
    to [a.alt_name = name]. *)
Definition alias_join (name : sql_text) (d : database) : list string :=
  a ← List.filter (alias_named name) (aliases d);
  p_name <$> List.filter (λ p, (p_id p =? a_player_id a)%Z) (players d).

Definition resolve_player_name (name : sql_text) : M database sql_text :=
  _connect (λ d,
    match alias_join name d with
    | row :: _ => Returned (Some row) d
    | [] => Returned name d
    end).


(** *** Games *)

(** Whether a row of [games] has this [replay_file]. *)
Definition has_game (replay_file' : string) (d : database) : bool :=
  existsb (λ g : game_row, String.eqb (replay_file g) replay_file') (games d).

Definition game_exists (replay_file' : string) : M database bool :=
  _connect (λ d, Returned (has_game replay_file' d) d).

Definition insert_game (game_data' : game_data) : M database Z :=
  _connect (λ d,
    if has_game (replay_file game_data') d
    then Raised (IntegrityError "UNIQUE constraint failed: games.replay_file") d
    else
      let i := next_id (g_id <$> games d) in
      Returned i (with_games d (games d ++ [{| g_id := i; g_data := game_data' |}]))).

Definition insert_game_player (game_id player_id : Z) (race : sql_text)
    (is_winner : bool) (apm : py_float) : M database unit :=
  _connect (λ d,
    if bool_decide (game_id ∈ (g_id <$> games d))
       && bool_decide (player_id ∈ (p_id <$> players d))
    then Returned tt (with_game_players d
      (game_players d ++
       [{| gp_id := next_id (gp_id <$> game_players d); gp_game_id := game_id;
           gp_player_id := player_id; gp_race := race;
           gp_is_winner := is_winner; gp_apm := apm |}]))
    else Raised (IntegrityError "FOREIGN KEY constraint failed") d).

Definition insert_chat_message (game_id player_id : Z) (message game_time : sql_text)
    (frame : Z) : M database unit :=
  _connect (λ d,
    if bool_decide (game_id ∈ (g_id <$> games d))
       && bool_decide (player_id ∈ (p_id <$> players d))
    then Returned tt (with_chat_messages d
      (chat_messages d ++
       [{| cm_id := next_id (cm_id <$> chat_messages d); cm_game_id := game_id;
           cm_player_id := player_id; cm_message := message;
           cm_game_time := game_time; cm_frame := frame |}]))
    else Raised (IntegrityError "FOREIGN KEY constraint failed") d).

(** *** Records *)

(** The order of TEXT values: NULL sorts before every string. *)
Definition sql_text_leb (a b : sql_text) : bool :=
  match a, b with
  | None, _ => true
  | Some _, None => false
  | Some x, Some y => String.leb x y
  end.

(** [ORDER BY played_at DESC]. *)
Definition played_at_desc (x y : game_row) : bool :=
  sql_text_leb (played_at y) (played_at x).

Definition involves (resolved : sql_text) (g : game_row) : bool :=
  sql_eq (winner_name g) resolved || sql_eq (loser_name g) resolved.

Record vs_record := {
  vs_opponent : sql_text;
  vs_wins : nat;
  vs_losses : nat;
  vs_total : nat;
  vs_games : list (game_row * string)
}.

Definition vs_step (my_names : gset string) (resolved : sql_text)
    (acc : nat * nat * list (game_row * string)) (g : game_row)
    : nat * nat * list (game_row * string) :=
  let '(wins, losses, games') := acc in
  if py_in (winner_name g) my_names && bool_decide (loser_name g = resolved)
  then (S wins, losses, games' ++ [(g, "win")])
  else if py_in (loser_name g) my_names && bool_decide (winner_name g = resolved)
  then (wins, S losses, games' ++ [(g, "loss")])
  else (wins, losses, games' ++ [(g, "unknown")]).

Definition get_record_vs (opponent_name : sql_text) : M database vs_record :=
  resolved ← resolve_player_name opponent_name;
  rows ← _connect (λ d,
    Returned (sort_by played_at_desc (List.filter (involves resolved) (games d))) d);
  names ← get_my_names;
  let my_names : gset string := list_to_set names in
  let '(wins, losses, games') := foldl (vs_step my_names resolved) (O, O, []) rows in
  mret {| vs_opponent := resolved; vs_wins := wins; vs_losses := losses;
          vs_total := wins + losses; vs_games := games' |}.

Record opponent_stats := {
  st_wins : nat;
  st_losses : nat;
  st_last_played : sql_text
}.

Record opponent_summary := {
  os_opponent : string;
  os_wins : nat;
  os_losses : nat;
  os_total : nat;
  os_last_played : sql_text
}.

(** The opponent and the result the loop of [get_all_opponents] reads off a
    game, [None] where it executes [continue]. *)
Definition opponent_of (my_names : gset string) (g : game_row)
    : option (string * bool) :=
  let winner := winner_name g in
  let loser := loser_name g in
  if py_in winner my_names && truthy loser && negb (py_in loser my_names)
  then (λ o, (o, true)) <$> loser
  else if py_in loser my_names && truthy winner && negb (py_in winner my_names)
  then (λ o, (o, false)) <$> winner
  else None.

Definition stats_step (my_names : gset string) (stats : gmap string opponent_stats)
    (g : game_row) : gmap string opponent_stats :=
  match opponent_of my_names g with
  | None => stats
  | Some (opponent, won) =>
    let s := default {| st_wins := 0; st_losses := 0; st_last_played := None |}
                     (stats !! opponent) in
    let s := if won
             then {| st_wins := S (st_wins s); st_losses := st_losses s;
                     st_last_played := st_last_played s |}
             else {| st_wins := st_wins s; st_losses := S (st_losses s);
                     st_last_played := st_last_played s |} in
    let s := match st_last_played s with
             | None => {| st_wins := st_wins s; st_losses := st_losses s;
                          st_last_played := played_at g |}
             | Some _ => s
             end in
    <[opponent := s]> stats
  end.

Definition summary_of (item : string * opponent_stats) : opponent_summary :=
  {| os_opponent := item.1; os_wins := st_wins item.2; os_losses := st_losses item.2;
     os_total := st_wins item.2 + st_losses item.2;
     os_last_played := st_last_played item.2 |}.

Definition get_all_opponents : M database (list opponent_summary) :=
  names ← get_my_names;
  let my_names : gset string := list_to_set names in
  if bool_decide (my_names = ∅) then mret []
  else
    rows ← _connect (λ d, Returned (sort_by played_at_desc (games d)) d);
    let stats := foldl (stats_step my_names) ∅ rows in
    mret (summary_of <$>
            sort_by (λ x y : string * opponent_stats, String.leb x.1 y.1)
                    (map_to_list stats)).

(** [SELECT col AS name, COUNT( * ) ... WHERE col IS NOT NULL GROUP BY col]:
    one row per distinct name, in the order of the names. *)
Definition group_count (col : list sql_text) : list (string * nat) :=
  let names := omap id col in
  (λ n, (n, length (List.filter (String.eqb n) names))) <$>
    sort_by String.leb (remove_dups names).

Definition count_desc (x y : string * nat) : bool := Nat.leb y.2 x.2.

(** The two grouped sub-selects are concatenated by [UNION ALL] and the
    whole is ordered by the count; no outer [GROUP BY] merges the two rows of
    a name that both won and lost. *)
Definition select_name_counts (d : database) : list (string * nat) :=
  sort_by count_desc
    (group_count (winner_name <$> (g_data <$> games d)) ++
     group_count (loser_name <$> (g_data <$> games d))).

Definition get_player_name_counts : M database (list (string * nat)) :=
  _connect (λ d, Returned (select_name_counts d) d).

End Database.

(** ** [pathlib.Path] *)

Module Path.

Record t := {
  parent : list string;
  name : string
}.

(** [str.rfind(".")], counted in bytes. *)
Fixpoint rfind_dot (s : string) : option nat :=
  match s with
  | EmptyString => None
  | String c r =>
    match rfind_dot r with
    | Some i => Some (S i)
    | None => if Ascii.eqb c "." then Some O else None
    end
  end.

Fixpoint string_drop (n : nat) (s : string) : string :=
  match n, s with
  | O, _ => s
  | S n', String _ r => string_drop n' r
  | S _, EmptyString => EmptyString
  end.

(** [PurePath.suffix]: the text from the last dot of the name on, when that
    dot is neither the first nor the last character (the rule up to
    Python 3.13). *)
Definition suffix (p : t) : string :=
  match rfind_dot (name p) with
  | Some i =>
    if (0 <? i)%nat && (i <? String.length (name p) - 1)%nat
    then string_drop i (name p) else ""
  | None => ""
  end.

End Path.

(** [str.lower] on the letters A-Z. No other character lowers to one of
    ".rep", so [lower s = ".rep"] decides what the source tests. *)
Definition lower_ascii (c : ascii) : ascii :=
  let n := nat_of_ascii c in
  if (65 <=? n)%nat && (n <=? 90)%nat then ascii_of_nat (n + 32) else c.

Fixpoint lower (s : string) : string :=
  match s with
  | EmptyString => EmptyString
  | String c r => String (lower_ascii c) (lower r)
  end.

(** ** The replay decoder's result, as the pipeline reads it *)

Module SCReplayParser.

Record player := {
  name : sql_text;
  race : sql_text;
  id : Z
}.

(** A chat entry; [time] and [frame] are [None] when the key is missing. *)
Record chat := {
  player_name : sql_text;
  message : sql_text;
  time : option string;
  frame : option Z
}.

(** [game_info]; [other_keys] holds whatever else the decoder put in the
    dictionary, which the pipeline never reads. *)
Record info := {
  winner : sql_text;
  loser : sql_text;
  gi_duration_seconds : option py_float;
  duration : sql_text;
  actual_duration : sql_text;
  gi_game_type : sql_text;
  other_keys : gmap string sql_text
}.

Record map_info := {
  md_map_name : sql_text;
  tileset : sql_text
}.

Record t := {
  game_info : info;
  players : list player;
  player_stats : gmap Z (gmap string py_float);
  map_data : map_info;
  chat_messages : list chat
}.

End SCReplayParser.

(** ** [RecordManager] *)

Module RecordManager.

Record t := {
  db : database;
  _my_names : gset string
}.

(** A call of a [Database] method on [self.db]. *)
Definition on_db {A} (m : M database A) : M t A :=
  λ s, match m (db s) with
       | Returned a d => Returned a {| db := d; _my_names := _my_names s |}
       | Raised e d => Raised e {| db := d; _my_names := _my_names s |}
       end.

Definition my_names : M t (gset string) :=
  db_names ← on_db Database.get_my_names;
  gets (λ s, _my_names s ∪ list_to_set db_names).

Section Pipeline.
(** What lies outside the repository: the table of Unicode decimal digits
    behind the regular expression's [\d] (given a string, the first
    character and the rest when that character is a decimal digit), and the
    decoder ([None] when constructing or running it raises). *)
Context (decimal_digit : string → option (string * string)).
Context (decoder : Path.t → option SCReplayParser.t).

(** [\d{n}] at the front of [s]: the digits matched and the rest. *)
Fixpoint digits (n : nat) (s : string) : option (list string * string) :=
  match n with
  | O => Some ([], s)
  | S n' =>
    '(d, r) ← decimal_digit s;
    '(ds, r') ← digits n' r;
    Some (d :: ds, r')
  end.

Definition literal (c : ascii) (s : string) : option string :=
  match s with
  | String c' r => if Ascii.eqb c c' then Some r else None
  | EmptyString => None
  end.

Definition join (l : list string) : string := foldr String.append "" l.

(** [DATE_PATTERN.match]: the two groups when the pattern matches at the
    front of [s]. *)
Definition DATE_PATTERN_match (s : string) : option (list string * list string) :=
  '(y, s) ← digits 4 s;
  s ← literal "-" s;
  '(m, s) ← digits 2 s;
  s ← literal "-" s;
  '(d, s) ← digits 2 s;
  s ← literal "@" s;
  '(t, _) ← digits 6 s;
  Some (y ++ ["-"] ++ m ++ ["-"] ++ d, t).

(** [DATE_PATTERN.search]: the leftmost match. *)
Fixpoint DATE_PATTERN_search (s : string) : option (list string * list string) :=
  match DATE_PATTERN_match s with
  | Some groups => Some groups
  | None =>
    match s with
    | EmptyString => None
    | String _ r => DATE_PATTERN_search r
    end
  end.

Definition _extract_datetime (filename : string) : sql_text :=
  match DATE_PATTERN_search filename with
  | None => None
  | Some (date_str, time_str) =>
    let time_formatted :=
      join (take 2 time_str) +:+ ":" +:+ join (take 2 (drop 2 time_str))
        +:+ ":" +:+ join (take 2 (drop 4 time_str)) in
    Some (join date_str +:+ " " +:+ time_formatted)
  end.

Definition _determine_my_result (winner_name loser_name : sql_text) : M t string :=
  names ← my_names;
  if bool_decide (names = ∅) then mret "unknown"
  else if py_in winner_name names then mret "win"
  else if py_in loser_name names then mret "loss"
  else mret "unknown".

Definition race_step (winner_name loser_name : sql_text)
    (acc : sql_text * sql_text) (p : SCReplayParser.player) : sql_text * sql_text :=
  if bool_decide (SCReplayParser.name p = winner_name)
  then (SCReplayParser.race p, acc.2)
  else if bool_decide (SCReplayParser.name p = loser_name)
  then (acc.1, SCReplayParser.race p)
  else acc.

Definition _build_game_data (parser : SCReplayParser.t) (replay_file : string)
    : M t game_data :=
  let gi := SCReplayParser.game_info parser in
  let played_at := _extract_datetime replay_file in
  let winner_name := SCReplayParser.winner gi in
  let loser_name := SCReplayParser.loser gi in
  let '(winner_race, loser_race) :=
    foldl (race_step winner_name loser_name) (None, None)
          (SCReplayParser.players parser) in
  my_result ← _determine_my_result winner_name loser_name;
  mret {| replay_file := replay_file;
          played_at := played_at;
          duration_seconds := SCReplayParser.gi_duration_seconds gi;
          duration_text :=
            py_or (SCReplayParser.duration gi) (SCReplayParser.actual_duration gi);
          map_name := SCReplayParser.md_map_name (SCReplayParser.map_data parser);
          map_tileset := SCReplayParser.tileset (SCReplayParser.map_data parser);
          game_type := SCReplayParser.gi_game_type gi;
          winner_name := winner_name;
          loser_name := loser_name;
          winner_race := winner_race;
          loser_race := loser_race;
          my_result := Some my_result |}.

Definition _save_players (game_id : Z) (parser : SCReplayParser.t) : M t unit :=
  let gi := SCReplayParser.game_info parser in
  for_each (SCReplayParser.players parser) (λ p,
    player_id ← on_db (Database.get_or_create_player (SCReplayParser.name p));
    let is_winner := bool_decide (SCReplayParser.name p = SCReplayParser.winner gi) in
    let apm :=
      match SCReplayParser.player_stats parser !! SCReplayParser.id p with
      | Some stats => default 0%Z (stats !! "apm")
      | None => 0%Z
      end in
    on_db (Database.insert_game_player game_id player_id
             (SCReplayParser.race p) is_winner apm)).

Definition _save_chat (game_id : Z) (parser : SCReplayParser.t) : M t unit :=
  for_each (SCReplayParser.chat_messages parser) (λ msg,
    player_id ← on_db (Database.get_or_create_player (SCReplayParser.player_name msg));
    on_db (Database.insert_chat_message game_id player_id
             (SCReplayParser.message msg)
             (Some (default "" (SCReplayParser.time msg)))
             (default 0%Z (SCReplayParser.frame msg)))).

Definition process_replay (replay_path : Path.t) : M t (option game_data) :=
  let replay_file := Path.name replay_path in
  exists_ ← on_db (Database.game_exists replay_file);
  if (exists_ : bool) then mret None
  else
    match decoder replay_path with
    | None => mret None
    | Some parser =>
      game_data ← _build_game_data parser replay_file;
      game_id ← on_db (Database.insert_game game_data);
      _save_players game_id parser;;
      _save_chat game_id parser;;
      mret (Some game_data)
    end.

(** [rep_files] is [sorted(folder.glob("**/*.rep"))]. *)
Fixpoint import_folder (rep_files : list Path.t) : M t nat :=
  match rep_files with
  | [] => mret O
  | rep_file :: rest =>
    result ← process_replay rep_file;
    count ← import_folder rest;
    mret (if result is Some _ then S count else count)
  end.
End Pipeline.

Definition get_record (opponent_name : sql_text) : M t Database.vs_record :=
  on_db (Database.get_record_vs opponent_name).

Definition get_all_records : M t (list Database.opponent_summary) :=
  on_db Database.get_all_opponents.

Definition detect_my_name : M t sql_text :=
  counts ← on_db Database.get_player_name_counts;
  match counts with
  | [] => mret None
  | (best_name, best_count) :: rest =>
    existing ← on_db Database.get_my_names;
    match existing with
    | first :: _ => mret (Some first)
    | [] =>
      if match rest with
         | (_, second_count) :: _ => (best_count <=? second_count)%nat
         | [] => false
         end
      then mret None
      else
        on_db (Database.set_player_is_me (Some best_name) true);;
        modify (λ s, {| db := db s; _my_names := {[best_name]} ∪ _my_names s |});;
        mret (Some best_name)
    end
  end.

End RecordManager.

(** ** [ReplayHandler]: the watcher's event handler *)

Module ReplayHandler.

(** The handler's [_processed] set, and the calls of [_on_new_replay] made
    so far (oldest first), kept to state what was delivered. *)
Record t := {
  _processed : gset string;
  calls : list Path.t
}.

Definition init : t := {| _processed := ∅; calls := [] |}.

(** A file-system event together with what the handler observes while it
    handles it: the size [path.stat()] reports after the settle delay
    ([None] when the call raises) and whether the callback raises. *)
Record event := {
  src_path : Path.t;
  is_directory : bool;
  st_size : option Z;
  callback_raises : bool
}.

(** The callback, wrapped in [try ... except Exception]: the call is made,
    and an exception it raises is logged and goes no further. *)
Definition guarded_callback (path : Path.t) (raises : bool) : M t unit :=
  λ h,
    let h' := {| _processed := _processed h; calls := calls h ++ [path] |} in
    match (if raises then Raised CallbackError h' else Returned tt h') with
    | Returned a s => Returned a s
    | Raised _ s => Returned tt s
    end.

Definition _handle (e : event) : M t unit :=
  let path := src_path e in
  if negb (String.eqb (lower (Path.suffix path)) ".rep") then mret tt
  else λ h,
    if bool_decide (Path.name path ∈ _processed h) then Returned tt h
    else
      match st_size e with
      | None => Raised (OSError "stat") h
      | Some size =>
        if (size =? 0)%Z then Returned tt h
        else
          guarded_callback path (callback_raises e)
            {| _processed := {[Path.name path]} ∪ _processed h; calls := calls h |}
      end.

(** [on_created] and [on_modified] are the same function. *)
Definition on_event (e : event) : M t unit :=
  if negb (is_directory e) then _handle e else mret tt.

(** The handler over a sequence of events, one at a time as the observer's
    thread dispatches them. An exception that escapes a handler leaves the
    handler's state as it was; a watcher that stops at that point has
    performed a prefix of this run. *)
Definition run (events : list event) (h : t) : t :=
  foldl (λ h e, final_state (on_event e h)) h events.

End ReplayHandler.

(** ** [RecordManager.format_record]: a record as text *)

(** What formatting gives: a text, or the [TypeError] that subscripting
    [None] raises. *)
Inductive formatted : Type :=
  | Text (s : string)
  | TypeError.

(** [f"{v}"] for a value that may be [None]. *)
Definition fstr (v : sql_text) : string := default "None" v.

Fixpoint spaces (n : nat) : string :=
  match n with
  | O => ""
  | S n' => String " " (spaces n')
  end.

(** ["\n".join(lines)]. *)
Fixpoint join_lines (lines : list string) : string :=
  match lines with
  | [] => ""
  | [line] => line
  | line :: rest => line +:+ String "010" (join_lines rest)
  end.

Section Format.
(** The two operations of [str] that count characters rather than bytes:
    [s[:n]] and [len(s)]. *)
Context (str_take : nat → string → string) (str_len : string → nat).

(** [f"{s:4s}"]: [s], filled with spaces on the right up to [width]. *)
Definition ljust (width : nat) (s : string) : string :=
  s +:+ spaces (width - str_len s).

(** One round of the loop over [record["games"][:5]]; the slice of
    [played_at] comes first and raises when the column is NULL. *)
Definition format_game (game : game_row * string) : formatted :=
  match played_at game.1 with
  | None => TypeError
  | Some played =>
    let date := str_take 10 played in
    let map_name := fstr (py_or (py_or (map_name game.1) (map_tileset game.1)) (Some "?")) in
    let result := game.2 in
    let duration := fstr (duration_text game.1) in
    Text ("  " +:+ date +:+ " | " +:+ ljust 4 result +:+ " | " +:+ map_name
          +:+ " | " +:+ duration)
  end.

(** The loop: the lines of the games, up to the first that raises. *)
Fixpoint format_games (games' : list (game_row * string)) : option (list string) :=
  match games' with
  | [] => Some []
  | game :: rest =>
    match format_game game with
    | TypeError => None
    | Text line => cons line <$> format_games rest
    end
  end.

Definition format_record (record : Database.vs_record) : formatted :=
  if (Database.vs_total record =? 0)%nat
  then Text (fstr (Database.vs_opponent record) +:+ ": 전적 없음")
  else
    let header :=
      "vs " +:+ fstr (Database.vs_opponent record) +:+ ": "
      +:+ pretty (Database.vs_wins record) +:+ "승 "
      +:+ pretty (Database.vs_losses record) +:+ "패 (총 "
      +:+ pretty (Database.vs_total record) +:+ "전)" in
    match format_games (take 5 (Database.vs_games record)) with
    | Some lines => Text (join_lines (header :: lines))
    | None => TypeError
    end.

Definition format_record_short (record : Database.vs_record) : string :=
  if (Database.vs_total record =? 0)%nat
  then fstr (Database.vs_opponent record) +:+ ": 첫 대전"
  else
    let last_date :=
      match Database.vs_games record with
      | last_game :: _ =>
        if truthy (played_at last_game.1)
        then " (최근: " +:+ str_take 10 (default "" (played_at last_game.1)) +:+ ")"
        else ""
      | [] => ""
      end in
    "vs " +:+ fstr (Database.vs_opponent record) +:+ ": "
    +:+ pretty (Database.vs_wins record) +:+ "승 "
    +:+ pretty (Database.vs_losses record) +:+ "패" +:+ last_date.
End Format.

(** ** [notifier._escape_xml] *)

Module notifier.

(** [text.replace(old, new)] for an [old] of one character. *)
Fixpoint replace_char (old : ascii) (new : string) (text : string) : string :=
  match text with
  | EmptyString => EmptyString
  | String c rest =>
    if Ascii.eqb c old then new +:+ replace_char old new rest
    else String c (replace_char old new rest)
  end.

(** The double quote character. *)
Definition dquote : ascii := "034"%char.

Definition _escape_xml (text : string) : string :=
  replace_char "'" "&apos;"
    (replace_char dquote "&quot;"
       (replace_char ">" "&gt;"
          (replace_char "<" "&lt;"
             (replace_char "&" "&amp;" text)))).

End notifier.

(** ** [config.add_my_name] and [main.cmd_set_name] *)

Module config.

Section Config.
(** The values of the other keys of the configuration. *)
Context {V : Type}.

(** The configuration dictionary: the list under ["my_names"] ([None]
    when the key is missing) and the other keys. *)
Record cfg := {
  my_names : option (list string);
  other_keys : gmap string V
}.

(** The dictionary in memory and the dictionaries written to the
    configuration file so far, oldest first. *)
Record t := {
  dict : cfg;
  writes : list cfg
}.

(** [save(cfg)]; [disk_ok] is whether the file can be opened and written. *)
Definition save (disk_ok : bool) : M t unit :=
  if disk_ok
  then modify (λ s, {| dict := dict s; writes := writes s ++ [dict s] |})
  else raise (OSError "open").

Definition add_my_name (name : string) (disk_ok : bool) : M t cfg :=
  s ← gets id;
  let names := default [] (my_names (dict s)) in
  (if bool_decide (name ∈ names) then mret tt
   else
     modify (λ s, {| dict := {| my_names := Some (names ++ [name]);
                                other_keys := other_keys (dict s) |};
                     writes := writes s |});;
     save disk_ok);;
  gets dict.
End Config.

End config.

Module main.

Section Commands.
Context {V : Type}.

(** What a command works on: the manager and the configuration. *)
Record t := {
  manager : RecordManager.t;
  cfg : config.t (V:=V)
}.

Definition on_manager {A} (op : M RecordManager.t A) : M t A :=
  λ s, match op (manager s) with
       | Returned a m => Returned a {| manager := m; cfg := cfg s |}
       | Raised e m => Raised e {| manager := m; cfg := cfg s |}
       end.

Definition on_config {A} (op : M config.t A) : M t A :=
  λ s, match op (cfg s) with
       | Returned a c => Returned a {| manager := manager s; cfg := c |}
       | Raised e c => Raised e {| manager := manager s; cfg := c |}
       end.

(** [cmd_set_name]; the line it prints is left out. *)
Definition cmd_set_name (name : string) (disk_ok : bool) : M t unit :=
  on_manager (RecordManager.on_db (Database.get_or_create_player (Some name)));;
  on_manager (RecordManager.on_db (Database.set_player_is_me (Some name) true));;
  on_config (config.add_my_name name disk_ok);;
  mret tt.
End Commands.

End main.

(** ** Sample data *)

Definition game_between (file : string) (winner loser : sql_text) (played : sql_text)
    : game_data :=
  {| replay_file := file; played_at := played; duration_seconds := None;
     duration_text := None; map_name := None; map_tileset := None;
     game_type := None; winner_name := winner; loser_name := loser;
     winner_race := None; loser_race := None; my_result := None |}.

(** The store after [insert_game] of each record in turn, from empty. *)
Definition store_of_games (l : list game_data) : database :=
  foldl (λ d g, final_state (Database.insert_game g d)) empty_db l.

(** The games of the specification's aggregation example: the local user
    "Alice" has 3 wins and 2 losses against "Bob" and 1 win against "Carol". *)
Definition alice_store : database :=
  final_state
    ((Database.get_or_create_player (Some "Alice");;
      Database.set_player_is_me (Some "Alice") true)
       (store_of_games
          [game_between "1.rep" (Some "Alice") (Some "Bob") (Some "2026-01-01 10:00:00");
           game_between "2.rep" (Some "Bob") (Some "Alice") (Some "2026-01-02 10:00:00");
           game_between "3.rep" (Some "Alice") (Some "Carol") (Some "2026-01-03 10:00:00");
           game_between "4.rep" (Some "Alice") (Some "Bob") (Some "2026-01-04 10:00:00");
           game_between "5.rep" (Some "Bob") (Some "Alice") None;
           game_between "6.rep" (Some "Alice") (Some "Bob") (Some "2026-01-06 10:00:00")])).

(** A decoded 1v1 game between [winner] and [loser]; [other] is what else
    the decoder reports in [game_info]. *)
Definition decoded_game (winner loser : sql_text) (other : gmap string sql_text)
    : SCReplayParser.t :=
  {| SCReplayParser.game_info :=
       {| SCReplayParser.winner := winner; SCReplayParser.loser := loser;
          SCReplayParser.gi_duration_seconds := None;
          SCReplayParser.duration := Some "10:00";
          SCReplayParser.actual_duration := None;
          SCReplayParser.gi_game_type := Some "1v1";
          SCReplayParser.other_keys := other |};
     SCReplayParser.players :=
       [{| SCReplayParser.name := winner; SCReplayParser.race := Some "Zerg";
           SCReplayParser.id := 0 |};
        {| SCReplayParser.name := loser; SCReplayParser.race := Some "Terran";
           SCReplayParser.id := 1 |}];
     SCReplayParser.player_stats := ∅;
     SCReplayParser.map_data :=
       {| SCReplayParser.md_map_name := Some "Fighting Spirit";
          SCReplayParser.tileset := None |};
     SCReplayParser.chat_messages := [] |}.

(** A replay file [file] in the directory [dir]. *)
Definition replay_in (dir file : string) : Path.t :=
  {| Path.parent := [dir]; Path.name := file |}.

Definition new_manager : RecordManager.t :=
  {| RecordManager.db := empty_db; RecordManager._my_names := ∅ |}.

(** The decimal digits 0-9, the ASCII part of the table behind [\d]. *)
Definition is_ascii_digit (c : ascii) : bool :=
  let n := nat_of_ascii c in (48 <=? n)%nat && (n <=? 57)%nat.

Definition ascii_decimal_digit (s : string) : option (string * string) :=
  match s with
  | String c r => if is_ascii_digit c then Some (String c "", r) else None
  | EmptyString => None
  end.

(** The text of a token YYYY-MM-DD@HHMMSS and of the time stamp
    "YYYY-MM-DD HH:MM:SS" made of the same fourteen characters. *)
Definition token_text (y1 y2 y3 y4 m1 m2 d1 d2 h1 h2 n1 n2 s1 s2 : ascii) : string :=
  String y1 (String y2 (String y3 (String y4 (String "-" (String m1 (String m2
  (String "-" (String d1 (String d2 (String "@" (String h1 (String h2
  (String n1 (String n2 (String s1 (String s2 "")))))))))))))))).

Definition stamp_text (y1 y2 y3 y4 m1 m2 d1 d2 h1 h2 n1 n2 s1 s2 : ascii) : string :=
  String y1 (String y2 (String y3 (String y4 (String "-" (String m1 (String m2
  (String "-" (String d1 (String d2 (String " " (String h1 (String h2
  (String ":" (String n1 (String n2 (String ":" (String s1 (String s2
  "")))))))))))))))))).

(** [s[:n]] on a text of 7-bit characters, where characters are bytes. *)
Definition ascii_take (n : nat) (s : string) : string := String.substring 0 n s.

(** An event for a file that has settled with [size] bytes. *)
Definition file_event (path : Path.t) (size : Z) (raises : bool) : ReplayHandler.event :=
  {| ReplayHandler.src_path := path; ReplayHandler.is_directory := false;
     ReplayHandler.st_size := Some size; ReplayHandler.callback_raises := raises |}.

(** ** Predicates of the statements *)

(** [v] is one of the names of the local user. *)
Definition local_name (my_names : gset string) (v : sql_text) : Prop :=
  ∃ s, v = Some s ∧ s ∈ my_names.

(** The verdict on a game against [resolved]: a win when a local name won
    and [resolved] lost; else a loss when a local name lost and [resolved]
    won; else unknown. *)
Definition vs_verdict (my_names : gset string) (resolved : sql_text) (g : game_row)
    (v : string) : Prop :=
  let win := local_name my_names (winner_name g) ∧ loser_name g = resolved in
  let loss := local_name my_names (loser_name g) ∧ winner_name g = resolved in
  (win → v = "win") ∧ (¬ win → loss → v = "loss") ∧ (¬ win → ¬ loss → v = "unknown").

(** [resolved] is a name and the winner or the loser of [g] has it. A
    name that is absent is on no side. *)
Definition is_side (resolved : sql_text) (g : game_row) : Prop :=
  ∃ n, resolved = Some n ∧ (winner_name g = Some n ∨ loser_name g = Some n).

Global Instance is_side_dec resolved g : Decision (is_side resolved g).
Proof.
  destruct resolved as [n|]; [|right; by intros (? & [=] & _)].
  destruct (decide (winner_name g = Some n ∨ loser_name g = Some n)) as [H|H].
  - left. by exists n.
  - right. by intros (? & [= <-] & ?).
Defined.

(** Later rows of a descending scan were played no later. *)
Definition played_no_later (x y : game_row) : Prop :=
  Database.sql_text_leb (played_at y) (played_at x) = true.

(** The local user won [g] against [o]: the winner is a local name, and
    the loser is [o], a non-empty name that is not local. And the local user
    lost [g] against [o]: the loser is a local name, and the winner is [o], a
    non-empty name that is not local. In both exactly one side is local. *)
Definition local_win (my_names : gset string) (o : string) (g : game_row) : Prop :=
  local_name my_names (winner_name g) ∧ loser_name g = Some o ∧ o ≠ "" ∧ o ∉ my_names.

Definition local_loss (my_names : gset string) (o : string) (g : game_row) : Prop :=
  local_name my_names (loser_name g) ∧ winner_name g = Some o ∧ o ≠ "" ∧ o ∉ my_names.

Global Instance local_name_dec my_names v : Decision (local_name my_names v).
Proof.
  destruct v as [s|]; [|right; by intros (? & [=] & _)].
  destruct (decide (s ∈ my_names)) as [H|H].
  - left. by exists s.
  - right. by intros (? & [= <-] & ?).
Defined.

Global Instance local_win_dec my_names o g : Decision (local_win my_names o g).
Proof. unfold local_win. apply _. Defined.

Global Instance local_loss_dec my_names o g : Decision (local_loss my_names o g).
Proof. unfold local_loss. apply _. Defined.







(** No file name was delivered twice, and every delivered name is in the
    processed-set. *)
Definition delivered_once (h : ReplayHandler.t) : Prop :=
  NoDup (Path.name <$> ReplayHandler.calls h) ∧
  ∀ p, p ∈ ReplayHandler.calls h → Path.name p ∈ ReplayHandler._processed h.

(** [name] is the alt-name of the alias row [a], and [p] is the player that
    row points to. *)
Definition alias_points_to (d : database) (name : sql_text)
    (a : alias_row) (p : player_row) : Prop :=
  a ∈ aliases d ∧ p ∈ players d ∧ name = Some (a_alt_name a) ∧ p_id p = a_player_id a.

(** The schema as a whole: its uniqueness constraints, the ids of the
    games, and the foreign keys of the participant and chat rows. *)
Record integrity (d : database) : Prop := {
  integrity_schema : schema_ok d;
  games_id_unique : NoDup (g_id <$> games d);
  game_players_fk : ∀ r, r ∈ game_players d →
    gp_game_id r ∈ (g_id <$> games d) ∧ gp_player_id r ∈ (p_id <$> players d);
  chat_messages_fk : ∀ r, r ∈ chat_messages d →
    cm_game_id r ∈ (g_id <$> games d) ∧ cm_player_id r ∈ (p_id <$> players d)
}.

(** The entity [_escape_xml] writes for a character, and the text with
    every character replaced by its entity in one pass. *)
Definition escape_char (c : ascii) : string :=
  if Ascii.eqb c "&" then "&amp;"
  else if Ascii.eqb c "<" then "&lt;"
  else if Ascii.eqb c ">" then "&gt;"
  else if Ascii.eqb c notifier.dquote then "&quot;"
  else if Ascii.eqb c "'" then "&apos;"
  else String c "".

Fixpoint escape_each (text : string) : string :=
  match text with
  | EmptyString => EmptyString
  | String c rest => escape_char c +:+ escape_each rest
  end.

(** The characters that XML markup is made of, apart from the ampersand. *)
Definition markup_char (c : ascii) : bool :=
  Ascii.eqb c "<" || Ascii.eqb c ">" || Ascii.eqb c notifier.dquote || Ascii.eqb c "'".

(** A name stands for player [i] in a store: [get_or_create_player] answers
    [i] for it and writes nothing. *)
Definition known_as (n : string) (i : Z) (d : database) : Prop :=
  Database.get_or_create_player (Some n) d = Returned i d.

(** The row of [game_players] that belongs to a decoded participant of the
    game [game_id], and the row of [chat_messages] that belongs to a decoded
    chat entry, in a store [d]. *)
Definition participant_row (game_id : Z) (parser : SCReplayParser.t) (d : database)
    (p : SCReplayParser.player) (row : game_player_row) : Prop :=
  gp_game_id row = game_id ∧
  gp_race row = SCReplayParser.race p ∧
  (gp_is_winner row = true ↔
   SCReplayParser.name p = SCReplayParser.winner (SCReplayParser.game_info parser)) ∧
  gp_apm row = default 0%Z
    (SCReplayParser.player_stats parser !! SCReplayParser.id p ≫= (.!! "apm")) ∧
  ∃ n, SCReplayParser.name p = Some n ∧ known_as n (gp_player_id row) d.

Definition chat_row (game_id : Z) (d : database)
    (msg : SCReplayParser.chat) (row : chat_message_row) : Prop :=
  cm_game_id row = game_id ∧
  cm_message row = SCReplayParser.message msg ∧
  cm_game_time row = Some (default "" (SCReplayParser.time msg)) ∧
  cm_frame row = default 0%Z (SCReplayParser.frame msg) ∧
  ∃ n, SCReplayParser.player_name msg = Some n ∧ known_as n (cm_player_id row) d.

(** Every participant and every chat entry of a decoded replay has a name. *)
Definition all_named (parser : SCReplayParser.t) : Prop :=
  Forall (λ p, is_Some (SCReplayParser.name p)) (SCReplayParser.players parser) ∧
  Forall (λ msg, is_Some (SCReplayParser.player_name msg))
         (SCReplayParser.chat_messages parser).

(** [d'] is [d] with more players, none of them under a name that is an
    alt-name, and the same aliases. *)
Definition grows (d d' : database) : Prop :=
  aliases d' = aliases d ∧
  ∃ extra, players d' = players d ++ extra ∧
    Forall (λ p, p_name p ∉ (a_alt_name <$> aliases d)) extra.

(** No name is local: none was passed to the manager and no player is
    marked in the store. *)
Definition no_local_names (m : RecordManager.t) : Prop :=
  RecordManager._my_names m = ∅ ∧ Database.select_my_names (RecordManager.db m) = [].

(** * Properties *)

Import Database.

(** ** The stable sort *)

Section SortFacts.
Context {A : Type} (leb : A → A → bool).
Hypothesis leb_total : ∀ x y, leb x y = true ∨ leb y x = true.

Lemma insert_by_Permutation x l : insert_by leb x l ≡ₚ x :: l.
Proof.
  induction l as [|y l IH]; simpl; [done|].
  destruct (leb x y); [done|]. rewrite IH. apply Permutation_swap.
Qed.

Lemma sort_by_Permutation l : sort_by leb l ≡ₚ l.
Proof.
  induction l as [|x l IH]; simpl; [done|].
  by rewrite insert_by_Permutation, IH.
Qed.

Lemma insert_by_Sorted x l :
  Sorted (λ a b, leb a b = true) l →
  Sorted (λ a b, leb a b = true) (insert_by leb x l).
Proof.
  induction 1 as [|y l Hs IH Hhd]; simpl.
  - repeat constructor.
  - destruct (leb x y) eqn:Hxy.
    + constructor; [by constructor|by constructor].
    + constructor; [done|].
      destruct l as [|z l]; simpl in *.
      * constructor. destruct (leb_total x y); congruence.
      * destruct (leb x z); constructor.
        -- destruct (leb_total x y); congruence.
        -- by inversion Hhd.
Qed.

Lemma sort_by_Sorted l : Sorted (λ a b, leb a b = true) (sort_by leb l).
Proof.
  induction l; simpl; [constructor|]. by apply insert_by_Sorted.
Qed.

Lemma sort_by_elem_of x l : x ∈ sort_by leb l ↔ x ∈ l.
Proof. by rewrite sort_by_Permutation. Qed.
End SortFacts.


Lemma string_leb_trans x y z :
  String.leb x y = true → String.leb y z = true → String.leb x z = true.
Proof.
  intros H1 H2. apply Is_true_true. apply Is_true_true in H1, H2.
  exact (transitivity (R:=String.le) H1 H2).
Qed.


Lemma sql_text_leb_trans a b c :
  sql_text_leb a b = true → sql_text_leb b c = true → sql_text_leb a c = true.
Proof.
  destruct a, b, c; simpl; try done. apply string_leb_trans.
Qed.

(** ** Players and aliases *)

Lemma next_id_above ids i : i ∈ ids → (i < next_id ids)%Z.
Proof.
  unfold next_id. induction 1 as [i l|i j l _ IH]; simpl; lia.
Qed.

Lemma next_id_fresh ids : next_id ids ∉ ids.
Proof. intros H%next_id_above. lia. Qed.

Lemma filter_unique_key {A K} (f : A → K) (test : A → bool) (l : list A) (x : A) :
  NoDup (f <$> l) → x ∈ l → (∀ y, test y = true ↔ f y = f x) →
  List.filter test l = [x].
Proof.
  intros Hnd Hx Htest. induction l as [|y l IH]; [by inversion Hx|].
  simpl in *. apply NoDup_cons in Hnd as [Hy Hnd].
  assert (Hnone : ∀ l', (∀ z, z ∈ l' → f z ≠ f x) → List.filter test l' = []).
  { induction l' as [|z l' IH']; [done|]. intros Hall. simpl.
    destruct (test z) eqn:Hz.
    - apply Htest in Hz. destruct (Hall z); [left|done].
    - apply IH'. intros w Hw. apply Hall. by right. }
  apply elem_of_cons in Hx as [->|Hx].
  - rewrite (proj2 (Htest y)) by done. f_equal. apply Hnone.
    intros z Hz Heq. apply Hy. rewrite <- Heq. by apply list_elem_of_fmap_2.
  - destruct (test y) eqn:Hty.
    + apply Htest in Hty. destruct Hy. rewrite Hty. by apply list_elem_of_fmap_2.
    + by apply IH.
Qed.

Lemma NoDup_key_inj {A K} (f : A → K) (l : list A) (x y : A) :
  NoDup (f <$> l) → x ∈ l → y ∈ l → f x = f y → x = y.
Proof.
  induction l as [|z l IH]; [by inversion 2|].
  simpl. intros [Hz Hnd]%NoDup_cons Hx Hy Heq.
  apply elem_of_cons in Hx as [->|Hx]; apply elem_of_cons in Hy as [->|Hy]; auto.
  - destruct Hz. rewrite Heq. by apply list_elem_of_fmap_2.
  - destruct Hz. rewrite <- Heq. by apply list_elem_of_fmap_2.
Qed.

Lemma find_Some_elem_of {A} (test : A → bool) (l : list A) (x : A) :
  List.find test l = Some x → x ∈ l ∧ test x = true.
Proof.
  intros H%List.find_some. by rewrite <- list_elem_of_In in H.
Qed.

Lemma find_None_elem_of {A} (test : A → bool) (l : list A) :
  List.find test l = None → ∀ x, x ∈ l → test x = false.
Proof.
  intros H x Hx. apply (List.find_none _ _ H). by apply list_elem_of_In.
Qed.

Lemma player_named_spec n p : player_named (Some n) p = true ↔ p_name p = n.
Proof. unfold player_named. simpl. apply String.eqb_eq. Qed.

Lemma alias_named_spec n a : alias_named (Some n) a = true ↔ a_alt_name a = n.
Proof. unfold alias_named. simpl. apply String.eqb_eq. Qed.

Lemma find_player_None n ps :
  List.find (player_named (Some n)) ps = None → n ∉ (p_name <$> ps).
Proof.
  intros H (p & -> & Hp)%list_elem_of_fmap.
  pose proof (find_None_elem_of _ _ H p Hp) as Hf.
  by rewrite (proj2 (player_named_spec _ _)) in Hf.
Qed.

Lemma find_alias_None n l :
  List.find (alias_named (Some n)) l = None → n ∉ (a_alt_name <$> l).
Proof.
  intros H (a & -> & Ha)%list_elem_of_fmap.
  pose proof (find_None_elem_of _ _ H a Ha) as Hf.
  by rewrite (proj2 (alias_named_spec _ _)) in Hf.
Qed.

Lemma existsb_alias_named_false n l :
  n ∉ (a_alt_name <$> l) → existsb (alias_named (Some n)) l = false.
Proof.
  intros Hn. apply not_true_is_false. intros (a & Ha & Hna)%existsb_exists.
  apply Hn. apply alias_named_spec in Hna as <-.
  apply list_elem_of_fmap_2. by apply list_elem_of_In.
Qed.

(** An alias whose player exists resolves to that player's name. *)
Lemma resolve_alias d a p :
  schema_ok d → a ∈ aliases d → p ∈ players d → p_id p = a_player_id a →
  resolve_player_name (Some (a_alt_name a)) d = Returned (Some (p_name p)) d.
Proof.
  intros Hok Ha Hp Hid. unfold resolve_player_name, _connect, alias_join.
  rewrite (filter_unique_key a_alt_name _ _ a); [|apply Hok|done|].
  2:{ intros y. apply alias_named_spec. }
  simpl. rewrite (filter_unique_key p_id _ _ p); [done|apply Hok|done|].
  intros y. rewrite Z.eqb_eq. by rewrite Hid.
Qed.

(** A name that is no alt-name resolves to itself. *)
Lemma resolve_unaliased d n :
  n ∉ (a_alt_name <$> aliases d) →
  resolve_player_name (Some n) d = Returned (Some n) d.
Proof.
  intros Hn. unfold resolve_player_name, _connect, alias_join.
  replace (List.filter (alias_named (Some n)) (aliases d)) with (@nil alias_row); [done|].
  symmetry. induction (aliases d) as [|a l IH]; [done|]. simpl in *.
  destruct (alias_named (Some n) a) eqn:Ha.
  - apply alias_named_spec in Ha. destruct Hn. rewrite Ha. by left.
  - apply IH. intros H. apply Hn. by right.
Qed.

Lemma schema_ok_add_player d n :
  schema_ok d → n ∉ (p_name <$> players d) →
  schema_ok (with_players d
    (players d ++ [{| p_id := next_id (p_id <$> players d); p_name := n;
                      p_is_me := false |}])).
Proof.
  intros [H1 H2 H3 H4 H5] Hn. split; simpl; try done.
  - rewrite fmap_app. apply NoDup_app. split; [done|]. split.
    + intros i Hi ->%list_elem_of_singleton. by apply next_id_fresh in Hi.
    + apply NoDup_singleton.
  - rewrite fmap_app. apply NoDup_app. split; [done|]. split.
    + by intros m Hm ->%list_elem_of_singleton.
    + apply NoDup_singleton.
  - intros a Ha. rewrite fmap_app. apply elem_of_app. left. by apply H4.
Qed.

Lemma schema_ok_add_alias d i alt :
  schema_ok d → alt ∉ (a_alt_name <$> aliases d) → i ∈ (p_id <$> players d) →
  schema_ok (with_aliases d
    (aliases d ++ [{| a_id := next_id (a_id <$> aliases d); a_player_id := i;
                      a_alt_name := alt |}])).
Proof.
  intros [H1 H2 H3 H4 H5] Hn Hi. split; simpl; try done.
  - rewrite fmap_app. apply NoDup_app. split; [done|]. split.
    + by intros m Hm ->%list_elem_of_singleton.
    + apply NoDup_singleton.
  - intros a [Ha| ->%list_elem_of_singleton]%elem_of_app; [by apply H4|done].
Qed.

(** What [get_or_create_player] returns on a string: the id of the player of
    that name, else of the player the name is an alias of, else of a new
    player. *)
Lemma get_or_create_player_spec d n :
  schema_ok d →
  ∃ p d', get_or_create_player (Some n) d = Returned (p_id p) d' ∧
    schema_ok d' ∧ p ∈ players d' ∧
    aliases d' = aliases d ∧ games d' = games d ∧
    ((d' = d ∧ p_name p = n) ∨
     (d' = d ∧ (n ∉ (p_name <$> players d)) ∧
      ∃ a, a ∈ aliases d ∧ a_alt_name a = n ∧ a_player_id a = p_id p) ∨
     ((n ∉ (p_name <$> players d)) ∧ (n ∉ (a_alt_name <$> aliases d)) ∧ p_name p = n ∧
      players d' = players d ++ [p])).
Proof.
  intros Hok. unfold get_or_create_player, _connect.
  destruct (List.find (player_named (Some n)) (players d)) as [p|] eqn:Hp.
  - apply find_Some_elem_of in Hp as [Hp Hn]. apply player_named_spec in Hn.
    exists p, d. split_and!; auto.
  - apply find_player_None in Hp.
    destruct (List.find (alias_named (Some n)) (aliases d)) as [a|] eqn:Ha.
    + apply find_Some_elem_of in Ha as [Ha Hn]. apply alias_named_spec in Hn.
      destruct (proj1 (list_elem_of_fmap _ _ _) (aliases_player_fk d Hok a Ha))
        as (p & Hid & Hpin).
      exists p, d. rewrite Hid. split_and!; auto.
      right; left. split_and!; auto. by exists a.
    + apply find_alias_None in Ha.
      eexists {| p_id := _; p_name := n; p_is_me := false |}, _.
      split; [reflexivity|]. split; [by apply schema_ok_add_player|].
      simpl. split; [apply elem_of_app; right; by left|].
      split_and!; auto. right; right. split_and!; auto.
Qed.

(** [add_alias] with an alt-name that is not taken: the alias row is added,
    pointing to the player [get_or_create_player] finds for the first name. *)
Lemma add_alias_spec d P Q :
  schema_ok d → Q ∉ (a_alt_name <$> aliases d) →
  ∃ p a d', add_alias (Some P) (Some Q) d = Returned tt d' ∧
    schema_ok d' ∧ p ∈ players d' ∧ a ∈ aliases d' ∧
    a_alt_name a = Q ∧ a_player_id a = p_id p ∧
    aliases d' = aliases d ++ [a] ∧
    (players d' = players d ∨ ((P ∉ (p_name <$> players d)) ∧ players d' = players d ++ [p])) ∧
    ((P ∈ (p_name <$> players d) ∨ P ∉ (a_alt_name <$> aliases d)) → p_name p = P) ∧
    (P ∉ (p_name <$> players d) →
     ∀ b, b ∈ aliases d → a_alt_name b = P → a_player_id b = p_id p).
Proof.
  intros Hok HQ.
  destruct (get_or_create_player_spec d P Hok)
    as (p & d0 & Hrun & Hok0 & Hp & Hal & _ & Hcases).
  unfold add_alias, mbind, M_bind. rewrite Hrun. unfold _connect.
  rewrite Hal, existsb_alias_named_false by done.
  assert (Hpid : p_id p ∈ (p_id <$> players d0)) by by apply list_elem_of_fmap_2.
  rewrite bool_decide_eq_true_2 by done.
  eexists p, {| a_id := _; a_player_id := p_id p; a_alt_name := Q |}, _.
  split; [reflexivity|]. rewrite <- Hal.
  split; [apply schema_ok_add_alias; by rewrite ?Hal|].
  simpl. split; [done|]. split; [apply elem_of_app; right; by left|].
  split_and!; auto.
  - destruct Hcases as [[-> _]|[[-> _]|(? & _ & _ & ?)]]; auto.
  - intros HP. destruct Hcases as [[_ ?]|[(-> & Hn & a & Ha & HaP & _)|(_ & _ & ? & _)]]; auto.
    destruct HP as [HP|HP]; [done|]. destruct HP. rewrite <- HaP.
    by apply list_elem_of_fmap_2.
  - intros HP b Hb HbP.
    destruct Hcases as [(-> & Hn)|[(-> & _ & a & Ha & HaP & Hid)|(_ & Hn & _)]].
    + destruct HP. rewrite <- Hn. by apply list_elem_of_fmap_2.
    + rewrite <- Hid. f_equal.
      apply (NoDup_key_inj a_alt_name (aliases d)); try done;
        [by destruct Hok|congruence].
    + destruct Hn. rewrite <- HbP. rewrite Hal in Hb. by apply list_elem_of_fmap_2.
Qed.

Lemma schema_ok_empty : schema_ok empty_db.
Proof. split; simpl; try apply NoDup_nil_2. by inversion 1. Qed.

(** C1 (amended). On a store that satisfies the schema, with [B] and [C] not
    yet alt-names and [A] a player name or a name unknown to the alias table:
    after [add_alias A B], [B] resolves to [A]; after a following
    [add_alias B C], [C] resolves to [B] when [B] is itself a player name,
    and to [A] otherwise, the alias being attached to the player that [B]
    stands for; [B] still resolves to [A]. *)
Theorem alias_of_alias_attaches_to_canonical (d : database) (A B C : string) :
  schema_ok d →
  A ∈ (p_name <$> players d) ∨ A ∉ (a_alt_name <$> aliases d) →
  B ∉ (a_alt_name <$> aliases d) →
  C ∉ (a_alt_name <$> aliases d) →
  C ≠ B →
  ∃ d1 d2,
    add_alias (Some A) (Some B) d = Returned tt d1 ∧
    resolve_player_name (Some B) d1 = Returned (Some A) d1 ∧
    add_alias (Some B) (Some C) d1 = Returned tt d2 ∧
    resolve_player_name (Some C) d2 =
      Returned (Some (if bool_decide (B ∈ (p_name <$> players d1)) then B else A)) d2 ∧
    resolve_player_name (Some B) d2 = Returned (Some A) d2.
Proof.
  intros Hok HA HB HC HCB.
  destruct (add_alias_spec d A B Hok HB)
    as (p & a & d1 & Hrun1 & Hok1 & Hp & Ha & HaB & Hap & Hal1 & _ & HpA & _).
  specialize (HpA HA).
  assert (HC1 : C ∉ (a_alt_name <$> aliases d1)).
  { rewrite Hal1, fmap_app. intros [?| ->%list_elem_of_singleton]%elem_of_app; [done|].
    by rewrite HaB in HCB. }
  destruct (add_alias_spec d1 B C Hok1 HC1)
    as (q & c & d2 & Hrun2 & Hok2 & Hq & Hc & HcC & Hcq & Hal2 & Hpl2 & HqB & Hqa).
  assert (Hp2 : p ∈ players d2).
  { destruct Hpl2 as [->|[_ ->]]; [done|]. apply elem_of_app. by left. }
  assert (Ha2 : a ∈ aliases d2).
  { rewrite Hal2. apply elem_of_app. by left. }
  exists d1, d2. split_and!; try done.
  - rewrite <- HaB, <- HpA. by apply resolve_alias.
  - rewrite <- HcC. case_bool_decide as HBn.
    + rewrite <- (HqB (or_introl HBn)). by apply resolve_alias.
    + rewrite <- HpA.
      assert (q = p) as ->.
      { apply (NoDup_key_inj p_id (players d2)); try done; [by destruct Hok2|].
        rewrite <- Hap. symmetry. by apply Hqa. }
      by apply resolve_alias.
  - rewrite <- HaB, <- HpA. by apply resolve_alias.
Qed.

Lemma alias_of_alias_attaches_to_canonical_witness :
  ∃ d1 d2,
    add_alias (Some "A") (Some "B") empty_db = Returned tt d1 ∧
    resolve_player_name (Some "B") d1 = Returned (Some "A") d1 ∧
    add_alias (Some "B") (Some "C") d1 = Returned tt d2 ∧
    resolve_player_name (Some "C") d2 =
      Returned (Some (if bool_decide ("B" ∈ (p_name <$> players d1)) then "B" else "A")) d2 ∧
    resolve_player_name (Some "B") d2 = Returned (Some "A") d2.
Proof.
  apply (alias_of_alias_attaches_to_canonical empty_db "A" "B" "C").
  - exact schema_ok_empty.
  - right. simpl. apply not_elem_of_nil.
  - simpl. apply not_elem_of_nil.
  - simpl. apply not_elem_of_nil.
  - discriminate.
Defined.

(** C1 as stated fails: from the empty store, aliasing "B" to "A" and then
    "C" to "B" makes "C" resolve to "A". *)
Lemma alias_of_alias_resolves_to_root :
  returned ((add_alias (Some "A") (Some "B");;
             add_alias (Some "B") (Some "C");;
             resolve_player_name (Some "C")) empty_db) = Some (Some "A").
Proof. vm_compute. reflexivity. Qed.

(** ** Appearance counts and identity inference *)

Lemma count_desc_total x y : count_desc x y = true ∨ count_desc y x = true.
Proof.
  unfold count_desc. destruct (Nat.leb_spec y.2 x.2), (Nat.leb_spec x.2 y.2); auto; lia.
Qed.

(** The counts come out in descending order. *)
Lemma select_name_counts_Sorted d :
  Sorted (λ x y, count_desc x y = true) (select_name_counts d).
Proof. apply sort_by_Sorted, count_desc_total. Qed.

(** They are the rows of the two grouped sub-selects, reordered. *)
Lemma select_name_counts_Permutation d :
  select_name_counts d ≡ₚ
    group_count (winner_name <$> (g_data <$> games d)) ++
    group_count (loser_name <$> (g_data <$> games d)).
Proof. apply sort_by_Permutation. Qed.

(** C2 (the code at the failing input). With one game won by "Alice"
    against "Bob" and one won by "Bob" against "Alice", the result has two
    rows for each name, each with count 1: a name's games as winner and as
    loser are counted apart, and no row carries its total of 2. *)
Lemma name_counts_count_each_role_apart :
  let d := store_of_games
    [game_between "1.rep" (Some "Alice") (Some "Bob") None;
     game_between "2.rep" (Some "Bob") (Some "Alice") None] in
  ∃ rows, get_player_name_counts d = Returned rows d ∧
    rows ≡ₚ [("Alice", 1); ("Alice", 1); ("Bob", 1); ("Bob", 1)] ∧
    ¬ NoDup rows.*1 ∧ ("Alice", 2) ∉ rows.
Proof.
  intros d. eexists. split; [reflexivity|].
  assert (Hrows : select_name_counts d =
    [("Alice", 1); ("Bob", 1); ("Alice", 1); ("Bob", 1)]) by (vm_compute; reflexivity).
  rewrite Hrows. split_and!.
  - apply perm_skip. apply perm_swap.
  - intros Hnd. apply NoDup_cons in Hnd as [Hnd _]. apply Hnd. set_solver.
  - intros H. repeat (apply elem_of_cons in H as [H|H]; [discriminate|]).
    by apply elem_of_nil in H.
Qed.

Local Opaque select_name_counts select_my_names.

(** C3 (amended). [detect_my_name] looks at the appearance counts first:
    with no counts it returns none, whether or not a player is marked local.
    With counts, it returns the first name already marked local, leaving
    the state as it is; else with a second count equal to the top count it
    returns none and marks nothing; else it marks the top name local, in the
    store for the player of that name and in the manager's own set, and
    returns it. *)
Theorem detect_my_name_cases (d : database) (mine : gset string) :
  let m := {| RecordManager.db := d; RecordManager._my_names := mine |} in
  (select_name_counts d = [] → RecordManager.detect_my_name m = Returned None m) ∧
  (∀ first others, select_name_counts d ≠ [] → select_my_names d = first :: others →
     RecordManager.detect_my_name m = Returned (Some first) m) ∧
  (∀ best second n rest, select_my_names d = [] →
     select_name_counts d = (best, n) :: (second, n) :: rest →
     RecordManager.detect_my_name m = Returned None m) ∧
  (∀ best n rest, select_my_names d = [] →
     select_name_counts d = (best, n) :: rest →
     (∀ second k rest', rest = (second, k) :: rest' → k ≠ n) →
     ∃ m', RecordManager.detect_my_name m = Returned (Some best) m' ∧
       Returned tt (RecordManager.db m') = set_player_is_me (Some best) true d ∧
       RecordManager._my_names m' = {[best]} ∪ mine ∧
       ∃ names, RecordManager.my_names m' = Returned names m' ∧ best ∈ names).
Proof.
  intros m. subst m.
  pose proof (select_name_counts_Sorted d) as Hs.
  unfold RecordManager.detect_my_name, mbind, M_bind, RecordManager.on_db.
  unfold get_player_name_counts, get_my_names, _connect. simpl.
  generalize dependent (select_name_counts d). intros counts Hs.
  split_and!.
  - by intros ->.
  - intros first others Hne Hex. destruct counts as [|[b n] rest]; [done|].
    simpl. by rewrite Hex.
  - intros best second n rest Hex ->. simpl. rewrite Hex. simpl.
    by rewrite Nat.leb_refl.
  - intros best n rest Hex -> Hrest. simpl. rewrite Hex.
    assert (match rest with
            | [] => false
            | (_, second_count) :: _ => (n <=? second_count)%nat
            end = false) as ->.
    { destruct rest as [|[second k] rest']; [done|].
      apply Nat.leb_gt. specialize (Hrest _ _ _ eq_refl).
      apply Sorted_inv in Hs as [_ Hhd]. apply HdRel_inv in Hhd.
      unfold count_desc in Hhd. simpl in Hhd. apply Nat.leb_le in Hhd. lia. }
    eexists. split; [reflexivity|]. simpl. split_and!; try done.
    eexists. split; [reflexivity|]. set_solver.
Qed.

Local Transparent select_name_counts select_my_names.

(** C3 as stated fails: with "Alice" marked local and no game stored, the
    counts are empty and [detect_my_name] returns none, not "Alice". *)
Lemma detect_my_name_none_without_games :
  let d := with_players empty_db [{| p_id := 1; p_name := "Alice"; p_is_me := true |}] in
  let m := {| RecordManager.db := d; RecordManager._my_names := ∅ |} in
  select_my_names d = ["Alice"] ∧ select_name_counts d = [] ∧
  RecordManager.detect_my_name m = Returned None m.
Proof. vm_compute. done. Qed.

(** ** The played-at time of a game record *)

Section PlayedAt.
Context (decimal_digit : string → option (string * string)).

Local Abbreviation search := (RecordManager.DATE_PATTERN_search decimal_digit).
Local Abbreviation match_at := (RecordManager.DATE_PATTERN_match decimal_digit).

(** [search] returns the match at the first position that has one. *)
Lemma DATE_PATTERN_search_leftmost pre rest groups :
  match_at rest = Some groups →
  (∀ pre' rest', pre +:+ rest = pre' +:+ rest' →
     (String.length pre' < String.length pre)%nat → match_at rest' = None) →
  search (pre +:+ rest) = Some groups.
Proof.
  intros Hm. induction pre as [|c pre IH]; intros Hfirst; simpl.
  - destruct rest; simpl; by rewrite Hm.
  - rewrite (Hfirst "" (String c (pre +:+ rest))); [|done|simpl; lia].
    apply IH. intros pre' rest' Heq Hlen.
    apply (Hfirst (String c pre') rest').
  + exact (f_equal (String c) Heq).
  + simpl. lia.
Qed.

Lemma DATE_PATTERN_search_none s :
  (∀ pre rest, s = pre +:+ rest → match_at rest = None) → search s = None.
Proof.
  induction s as [|c s IH]; intros Hnone; simpl.
  - by rewrite (Hnone "" "").
  - rewrite (Hnone "" (String c s)) by done.
    apply IH. intros pre rest ->. by apply (Hnone (String c pre) rest).
Qed.

(** On the digits 0-9 the pattern matches the text of a token, and the two
    groups are its date and its time. *)
Lemma DATE_PATTERN_match_token y1 y2 y3 y4 m1 m2 d1 d2 h1 h2 n1 n2 s1 s2 rest :
  (∀ c r, is_ascii_digit c = true → decimal_digit (String c r) = Some (String c "", r)) →
  forallb is_ascii_digit [y1; y2; y3; y4; m1; m2; d1; d2; h1; h2; n1; n2; s1; s2] = true →
  match_at (token_text y1 y2 y3 y4 m1 m2 d1 d2 h1 h2 n1 n2 s1 s2 +:+ rest) =
    Some ((λ c, String c "") <$> [y1; y2; y3; y4; "-"; m1; m2; "-"; d1; d2]%char,
          (λ c, String c "") <$> [h1; h2; n1; n2; s1; s2]).
Proof.
  intros Hdd Hall. simpl in Hall.
  repeat (apply andb_prop in Hall as [? Hall]).
  unfold RecordManager.DATE_PATTERN_match.
  cbv beta iota delta [String.append token_text]. simpl.
  repeat (rewrite Hdd by done; simpl).
  reflexivity.
Qed.
End PlayedAt.

Lemma my_names_run d mine :
  RecordManager.my_names {| RecordManager.db := d; RecordManager._my_names := mine |}
  = Returned (mine ∪ list_to_set (select_my_names d))
             {| RecordManager.db := d; RecordManager._my_names := mine |}.
Proof. reflexivity. Qed.

Lemma _determine_my_result_returns winner loser m :
  ∃ r, RecordManager._determine_my_result winner loser m = Returned r m.
Proof.
  destruct m as [d mine]. unfold RecordManager._determine_my_result, mbind, M_bind.
  rewrite my_names_run.
  destruct (bool_decide _); [by eexists|].
  destruct (py_in winner _); [by eexists|].
  destruct (py_in loser _); by eexists.
Qed.

(** [_build_game_data] only reads the store. *)
Lemma _build_game_data_returns decimal_digit parser replay_file' m :
  ∃ gd, RecordManager._build_game_data decimal_digit parser replay_file' m = Returned gd m ∧
    replay_file gd = replay_file' ∧
    played_at gd = RecordManager._extract_datetime decimal_digit replay_file'.
Proof.
  unfold RecordManager._build_game_data.
  destruct (foldl _ _ _) as [winner_race' loser_race'].
  unfold mbind, M_bind.
  destruct (_determine_my_result_returns
              (SCReplayParser.winner (SCReplayParser.game_info parser))
              (SCReplayParser.loser (SCReplayParser.game_info parser)) m) as [r ->].
  by eexists.
Qed.

(** C4 (amended). The played-at field of a game record is read off the file
    name and nothing else: it is [_extract_datetime] of the name, whatever
    the decoder reports. Where the leftmost match of the pattern in the name
    is a token YYYY-MM-DD@HHMMSS of digits 0-9, it is the text
    "YYYY-MM-DD HH:MM:SS" of the same digits; where the pattern matches
    nowhere in the name, it is absent. *)
Theorem played_at_from_filename_only
    (decimal_digit : string → option (string * string))
    (parser : SCReplayParser.t) (filename : string) (m : RecordManager.t) :
  ∃ gd,
    RecordManager._build_game_data decimal_digit parser filename m = Returned gd m ∧
    played_at gd = RecordManager._extract_datetime decimal_digit filename ∧
    (∀ pre y1 y2 y3 y4 m1 m2 d1 d2 h1 h2 n1 n2 s1 s2 rest,
       (∀ c r, is_ascii_digit c = true →
               decimal_digit (String c r) = Some (String c "", r)) →
       forallb is_ascii_digit
         [y1; y2; y3; y4; m1; m2; d1; d2; h1; h2; n1; n2; s1; s2] = true →
       filename = pre +:+ token_text y1 y2 y3 y4 m1 m2 d1 d2 h1 h2 n1 n2 s1 s2 +:+ rest →
       (∀ pre' rest', filename = pre' +:+ rest' →
          (String.length pre' < String.length pre)%nat →
          RecordManager.DATE_PATTERN_match decimal_digit rest' = None) →
       played_at gd = Some (stamp_text y1 y2 y3 y4 m1 m2 d1 d2 h1 h2 n1 n2 s1 s2)) ∧
    ((∀ pre rest, filename = pre +:+ rest →
        RecordManager.DATE_PATTERN_match decimal_digit rest = None) →
     played_at gd = None).
Proof.
  destruct (_build_game_data_returns decimal_digit parser filename m)
    as (gd & Hrun & _ & Hplayed).
  exists gd. split_and!; try done.
  - intros pre y1 y2 y3 y4 m1 m2 d1 d2 h1 h2 n1 n2 s1 s2 rest Hdd Hdigits -> Hfirst.
    rewrite Hplayed. unfold RecordManager._extract_datetime.
    erewrite DATE_PATTERN_search_leftmost; [| |exact Hfirst].
    2:{ by apply DATE_PATTERN_match_token. }
    reflexivity.
  - intros Hnone. rewrite Hplayed. unfold RecordManager._extract_datetime.
    by rewrite DATE_PATTERN_search_none.
Qed.

(** The example of the docstring of [_extract_datetime]. *)
Example _extract_datetime_docstring :
  RecordManager._extract_datetime ascii_decimal_digit "2026-02-07@020624_1v1.rep"
  = Some "2026-02-07 02:06:24".
Proof. reflexivity. Qed.

(** C4 as stated fails: for a file name with no token the played-at field
    is absent, although the decoder reports a start time. *)
Lemma played_at_absent_without_token :
  let parser := decoded_game (Some "Alice") (Some "Bob")
                  {["start_time" := Some "2026-02-07 02:06:24"]} in
  played_at <$>
    returned (RecordManager._build_game_data ascii_decimal_digit parser "game.rep"
                new_manager)
  = Some None.
Proof. vm_compute. reflexivity. Qed.

(** ** Ingestion *)

Lemma for_each_preserves {S A} (P : S → Prop) (l : list A) (body : A → M S unit) :
  (∀ x s, P s → P (final_state (body x s))) →
  ∀ s, P s → P (final_state (for_each l body s)).
Proof.
  intros Hbody. induction l as [|x l IH]; intros s Hs; [done|].
  simpl. unfold mbind, M_bind. specialize (Hbody x s Hs).
  destruct (body x s) as [[] s'|e s']; simpl in *; auto.
Qed.

Lemma on_db_final_state {A} (op : M database A) m :
  RecordManager.db (final_state (RecordManager.on_db op m)) = final_state (op (RecordManager.db m)).
Proof. unfold RecordManager.on_db. by destruct (op _). Qed.

Lemma on_db_run {A} (op : M database A) d mine :
  RecordManager.on_db op {| RecordManager.db := d; RecordManager._my_names := mine |}
  = match op d with
    | Returned a d' =>
      Returned a {| RecordManager.db := d'; RecordManager._my_names := mine |}
    | Raised e d' =>
      Raised e {| RecordManager.db := d'; RecordManager._my_names := mine |}
    end.
Proof. reflexivity. Qed.

Lemma get_or_create_player_games name d :
  games (final_state (get_or_create_player name d)) = games d.
Proof.
  unfold get_or_create_player, _connect.
  destruct (List.find _ (players d)); simpl; [done|].
  destruct (List.find _ (aliases d)); simpl; [done|].
  by destruct name.
Qed.

Lemma insert_game_player_games game_id player_id race is_winner apm d :
  games (final_state (insert_game_player game_id player_id race is_winner apm d)) = games d.
Proof. unfold insert_game_player, _connect. by destruct (_ && _). Qed.

Lemma insert_chat_message_games game_id player_id message game_time frame d :
  games (final_state (insert_chat_message game_id player_id message game_time frame d)) = games d.
Proof. unfold insert_chat_message, _connect. by destruct (_ && _). Qed.

Lemma bind_final_state_games {A B} (op : M RecordManager.t A) (k : A → M RecordManager.t B) m :
  games (RecordManager.db (final_state (op m))) = games (RecordManager.db m) →
  (∀ a s, games (RecordManager.db (final_state (k a s))) = games (RecordManager.db s)) →
  games (RecordManager.db (final_state ((op ≫= k) m))) = games (RecordManager.db m).
Proof.
  intros Hop Hk. unfold mbind, M_bind. destruct (op m) as [a s|e s]; simpl in *; [|done].
  by rewrite Hk.
Qed.

Lemma _save_players_games game_id parser m :
  games (RecordManager.db (final_state (RecordManager._save_players game_id parser m)))
  = games (RecordManager.db m).
Proof.
  unfold RecordManager._save_players.
  apply (for_each_preserves (λ s, games (RecordManager.db s) = games (RecordManager.db m)));
    [|done].
  intros p s <-. apply bind_final_state_games.
  - by rewrite on_db_final_state, get_or_create_player_games.
  - intros a s'. by rewrite on_db_final_state, insert_game_player_games.
Qed.

Lemma _save_chat_games game_id parser m :
  games (RecordManager.db (final_state (RecordManager._save_chat game_id parser m)))
  = games (RecordManager.db m).
Proof.
  unfold RecordManager._save_chat.
  apply (for_each_preserves (λ s, games (RecordManager.db s) = games (RecordManager.db m)));
    [|done].
  intros p s <-. apply bind_final_state_games.
  - by rewrite on_db_final_state, get_or_create_player_games.
  - intros a s'. by rewrite on_db_final_state, insert_chat_message_games.
Qed.

(** A file whose name the store knows is skipped, before the decoder is
    called and without a write. *)
Lemma process_replay_skip decimal_digit decoder replay_path m :
  has_game (Path.name replay_path) (RecordManager.db m) = true →
  RecordManager.process_replay decimal_digit decoder replay_path m = Returned None m.
Proof.
  intros Hhas. destruct m as [d mine]. simpl in Hhas.
  unfold RecordManager.process_replay, mbind, M_bind. rewrite on_db_run.
  unfold game_exists, _connect. by rewrite Hhas.
Qed.

(** The outcomes of [process_replay]: a skip leaves the state as it was;
    otherwise the file was unknown, its Game row was appended, and that is the
    only change to [games], whether the call returns or raises. *)
Lemma process_replay_outcomes decimal_digit decoder replay_path m :
  match RecordManager.process_replay decimal_digit decoder replay_path m with
  | Returned None m' =>
    m' = m ∧ (has_game (Path.name replay_path) (RecordManager.db m) = true ∨
              decoder replay_path = None)
  | Returned (Some gd) m' =>
    has_game (Path.name replay_path) (RecordManager.db m) = false ∧
    replay_file gd = Path.name replay_path ∧
    games (RecordManager.db m') =
      games (RecordManager.db m) ++
      [{| g_id := next_id (g_id <$> games (RecordManager.db m)); g_data := gd |}]
  | Raised e m' =>
    has_game (Path.name replay_path) (RecordManager.db m) = false ∧
    ∃ gd, replay_file gd = Path.name replay_path ∧
      games (RecordManager.db m') =
        games (RecordManager.db m) ++
        [{| g_id := next_id (g_id <$> games (RecordManager.db m)); g_data := gd |}]
  end.
Proof.
  destruct (has_game (Path.name replay_path) (RecordManager.db m)) eqn:Hhas.
  { rewrite process_replay_skip by done. auto. }
  destruct m as [d mine]. simpl in Hhas.
  unfold RecordManager.process_replay, mbind at 1, M_bind at 1.
  rewrite on_db_run. unfold game_exists, _connect. rewrite Hhas.
  destruct (decoder replay_path) as [parser|]; [|simpl; auto].
  unfold mbind at 1, M_bind at 1.
  destruct (_build_game_data_returns decimal_digit parser (Path.name replay_path)
              {| RecordManager.db := d; RecordManager._my_names := mine |})
    as (gd & -> & Hfile & _).
  unfold mbind at 1, M_bind at 1.
  rewrite on_db_run. unfold insert_game, _connect.
  rewrite Hfile, Hhas.
  set (m1 := {| RecordManager.db := with_games d _; RecordManager._my_names := mine |}).
  pose proof (_save_players_games (next_id (g_id <$> games d)) parser m1) as Hplayers.
  unfold mbind at 1, M_bind at 1.
  destruct (RecordManager._save_players _ parser m1) as [[] m2|e m2]; simpl in Hplayers.
  2:{ split; [done|]. exists gd. by rewrite Hplayers. }
  pose proof (_save_chat_games (next_id (g_id <$> games d)) parser m2) as Hchat.
  unfold mbind at 1, M_bind at 1.
  destruct (RecordManager._save_chat _ parser m2) as [[] m3|e m3]; simpl in Hchat.
  2:{ split; [done|]. exists gd. by rewrite Hchat, Hplayers. }
  simpl. by rewrite Hchat, Hplayers.
Qed.

Lemma has_game_false_filter n d :
  has_game n d = false →
  List.filter (λ g : game_row, String.eqb (replay_file g) n) (games d) = [].
Proof.
  unfold has_game. induction (games d) as [|g l IH]; [done|]. simpl.
  intros [-> Hl]%orb_false_elim. by apply IH.
Qed.

(** After the Game row of a file name is in the store, whatever else
    happened, a later [process_replay] of that name is a skip. *)
Lemma process_replay_after_insert decimal_digit decoder replay_path m m1 gd i :
  games (RecordManager.db m1) = games (RecordManager.db m) ++ [{| g_id := i; g_data := gd |}] →
  replay_file gd = Path.name replay_path →
  RecordManager.process_replay decimal_digit decoder replay_path m1 = Returned None m1.
Proof.
  intros Hgames Hfile. apply process_replay_skip.
  unfold has_game. rewrite Hgames, existsb_app. simpl.
  rewrite Hfile, String.eqb_refl. by rewrite orb_true_r.
Qed.

(** C5. When [process_replay] has stored a file, a second call for the same
    path (whatever the decoder would now say) returns none and leaves the
    state as it is, and the store holds exactly one Game row of that file
    name. *)
Theorem process_replay_twice_skips decimal_digit decoder decoder' replay_path m gd m1 :
  RecordManager.process_replay decimal_digit decoder replay_path m = Returned (Some gd) m1 →
  RecordManager.process_replay decimal_digit decoder' replay_path m1 = Returned None m1 ∧
  length (List.filter (λ g : game_row, String.eqb (replay_file g) (Path.name replay_path))
                      (games (RecordManager.db m1))) = 1%nat.
Proof.
  intros Hrun.
  pose proof (process_replay_outcomes decimal_digit decoder replay_path m) as Hout.
  rewrite Hrun in Hout. destruct Hout as (Hnew & Hfile & Hgames). split.
  - by eapply process_replay_after_insert.
  - rewrite Hgames, List.filter_app, has_game_false_filter by done.
    simpl. by rewrite Hfile, String.eqb_refl.
Qed.

Lemma process_replay_twice_skips_witness :
  let decoder := λ _ : Path.t, Some (decoded_game (Some "Alice") (Some "Bob") ∅) in
  let m1 := final_state (RecordManager.process_replay ascii_decimal_digit decoder
                           (replay_in "replays" "g.rep") new_manager) in
  RecordManager.process_replay ascii_decimal_digit decoder (replay_in "replays" "g.rep") m1
    = Returned None m1 ∧
  length (List.filter (λ g : game_row, String.eqb (replay_file g) "g.rep")
                      (games (RecordManager.db m1))) = 1%nat.
Proof.
  intros decoder m1.
  eapply (process_replay_twice_skips ascii_decimal_digit decoder decoder
            (replay_in "replays" "g.rep") new_manager).
  vm_compute. reflexivity.
Defined.

(** C10. When [process_replay] raises, it does so after the Game row was
    committed: the row is in the store that the failure leaves behind,
    together with whatever participant and chat rows were written before the
    failure, and every later [process_replay] of that file name returns none
    and leaves that store as it is. *)
Theorem process_replay_failure_keeps_game
    decimal_digit decoder decoder' replay_path replay_path' m e m1 :
  RecordManager.process_replay decimal_digit decoder replay_path m = Raised e m1 →
  Path.name replay_path' = Path.name replay_path →
  has_game (Path.name replay_path) (RecordManager.db m) = false ∧
  (∃ gd, replay_file gd = Path.name replay_path ∧
     games (RecordManager.db m1) =
       games (RecordManager.db m) ++
       [{| g_id := next_id (g_id <$> games (RecordManager.db m)); g_data := gd |}]) ∧
  RecordManager.process_replay decimal_digit decoder' replay_path' m1 = Returned None m1.
Proof.
  intros Hrun Hname.
  pose proof (process_replay_outcomes decimal_digit decoder replay_path m) as Hout.
  rewrite Hrun in Hout. destruct Hout as (Hnew & gd & Hfile & Hgames).
  split_and!; [done|by exists gd|].
  eapply process_replay_after_insert; [done|]. by rewrite Hname.
Qed.

Lemma process_replay_failure_keeps_game_witness :
  let decoder := λ _ : Path.t, Some (decoded_game (Some "Alice") None ∅) in
  let decoder' := λ _ : Path.t, Some (decoded_game (Some "Alice") (Some "Bob") ∅) in
  let m1 := final_state (RecordManager.process_replay ascii_decimal_digit decoder
                           (replay_in "replays" "g.rep") new_manager) in
  has_game "g.rep" empty_db = false ∧
  (∃ gd, replay_file gd = "g.rep" ∧
     games (RecordManager.db m1) = [] ++ [{| g_id := next_id []; g_data := gd |}]) ∧
  RecordManager.process_replay ascii_decimal_digit decoder' (replay_in "replays" "g.rep") m1
    = Returned None m1.
Proof.
  intros decoder decoder' m1.
  eapply (process_replay_failure_keeps_game ascii_decimal_digit decoder decoder'
            (replay_in "replays" "g.rep") (replay_in "replays" "g.rep") new_manager).
  - vm_compute. reflexivity.
  - reflexivity.
Defined.

(** In that run the failure is the second participant's: the Game row and
    the first participant's row stay behind. *)
Example process_replay_failure_example :
  let decoder := λ _ : Path.t, Some (decoded_game (Some "Alice") None ∅) in
  let o := RecordManager.process_replay ascii_decimal_digit decoder
             (replay_in "replays" "g.rep") new_manager in
  returned o = None ∧
  length (games (RecordManager.db (final_state o))) = 1%nat ∧
  length (game_players (RecordManager.db (final_state o))) = 1%nat.
Proof. vm_compute. done. Qed.

(** ** The watcher's handler *)

(** What one event does to the handler: nothing, or one delivery of a name
    that was not in the processed-set, which it then joins. *)
Lemma on_event_step e h :
  let h' := final_state (ReplayHandler.on_event e h) in
  h' = h ∨
  ((Path.name (ReplayHandler.src_path e) ∉ ReplayHandler._processed h) ∧
   h' = {| ReplayHandler._processed :=
             {[Path.name (ReplayHandler.src_path e)]} ∪ ReplayHandler._processed h;
           ReplayHandler.calls := ReplayHandler.calls h ++ [ReplayHandler.src_path e] |}).
Proof.
  unfold ReplayHandler.on_event, ReplayHandler._handle, ReplayHandler.guarded_callback.
  destruct (negb (ReplayHandler.is_directory e)); simpl; [|by left].
  destruct (negb _); simpl; [by left|].
  case_bool_decide as Hin; simpl; [by left|].
  destruct (ReplayHandler.st_size e) as [size|]; simpl; [|by left].
  destruct (size =? 0)%Z; simpl; [by left|].
  right. split; [done|]. by destruct (ReplayHandler.callback_raises e).
Qed.

(** An event for a name in the processed-set returns without a callback. *)
Lemma on_event_processed e h :
  Path.name (ReplayHandler.src_path e) ∈ ReplayHandler._processed h →
  ReplayHandler.on_event e h = Returned tt h.
Proof.
  intros Hin. unfold ReplayHandler.on_event, ReplayHandler._handle.
  destruct (negb (ReplayHandler.is_directory e)); [|done].
  destruct (negb _); [done|]. by rewrite bool_decide_eq_true_2.
Qed.

Lemma on_event_delivered_once e h :
  delivered_once h → delivered_once (final_state (ReplayHandler.on_event e h)).
Proof.
  intros [Hnd Hsub]. destruct (on_event_step e h) as [->|[Hfresh ->]]; [done|].
  split; simpl.
  - rewrite fmap_app. apply NoDup_app. split; [done|]. split; [|apply NoDup_singleton].
    intros n Hn ->%list_elem_of_singleton.
    apply list_elem_of_fmap in Hn as (p & Heq & Hp).
    apply Hfresh. rewrite Heq. by apply Hsub.
  - intros p [Hp| ->%list_elem_of_singleton]%elem_of_app; [|set_solver].
    apply elem_of_union_r. by apply Hsub.
Qed.

Lemma run_delivered_once events h :
  delivered_once h → delivered_once (ReplayHandler.run events h).
Proof.
  revert h. induction events as [|e events IH]; intros h Hh; [done|].
  simpl. apply IH. by apply on_event_delivered_once.
Qed.

(** C8. Over every sequence of events, from a new handler: no file name is
    delivered twice, every delivered name is in the processed-set, an event
    for a name in the processed-set returns without a callback and without a
    change, the processed-set never loses a name, and an event that leads to
    a delivery returns normally with the name in the processed-set whether
    or not the callback raises. *)
Theorem watcher_delivers_each_name_once (events : list ReplayHandler.event) :
  let h := ReplayHandler.run events ReplayHandler.init in
  NoDup (Path.name <$> ReplayHandler.calls h) ∧
  (∀ p, p ∈ ReplayHandler.calls h → Path.name p ∈ ReplayHandler._processed h) ∧
  (∀ e, Path.name (ReplayHandler.src_path e) ∈ ReplayHandler._processed h →
        ReplayHandler.on_event e h = Returned tt h) ∧
  (∀ e, ReplayHandler._processed h ⊆
        ReplayHandler._processed (final_state (ReplayHandler.on_event e h))) ∧
  (∀ e size,
     ReplayHandler.is_directory e = false →
     lower (Path.suffix (ReplayHandler.src_path e)) = ".rep" →
     Path.name (ReplayHandler.src_path e) ∉ ReplayHandler._processed h →
     ReplayHandler.st_size e = Some size → size ≠ 0%Z →
     ReplayHandler.on_event e h =
       Returned tt
         {| ReplayHandler._processed :=
              {[Path.name (ReplayHandler.src_path e)]} ∪ ReplayHandler._processed h;
            ReplayHandler.calls := ReplayHandler.calls h ++ [ReplayHandler.src_path e] |}).
Proof.
  intros h.
  assert (Hinv : delivered_once h).
  { apply run_delivered_once. split; simpl; [apply NoDup_nil_2|by inversion 1]. }
  destruct Hinv as [Hnd Hsub]. split_and!; try done.
  - intros e. apply on_event_processed.
  - intros e. destruct (on_event_step e h) as [->|[_ ->]]; [done|]. simpl. set_solver.
  - intros e size Hdir Hsuffix Hfresh Hsize Hnz.
    unfold ReplayHandler.on_event, ReplayHandler._handle, ReplayHandler.guarded_callback.
    rewrite Hdir, Hsuffix, Hsize. simpl.
    rewrite bool_decide_eq_false_2 by done.
    apply Z.eqb_neq in Hnz as ->.
    by destruct (ReplayHandler.callback_raises e).
Qed.

(** C9. Two paths with the same file name are one file to both components:
    once [process_replay] has stored the first, it skips the second without
    calling the decoder or writing; once the handler has delivered the
    first, an event for the second leads to no callback. *)
Theorem dedup_keyed_by_file_name
    decimal_digit decoder decoder' (replay_path replay_path' : Path.t) :
  Path.name replay_path' = Path.name replay_path →
  (∀ m gd m1,
     RecordManager.process_replay decimal_digit decoder replay_path m
       = Returned (Some gd) m1 →
     RecordManager.process_replay decimal_digit decoder' replay_path' m1
       = Returned None m1) ∧
  (∀ events e',
     let h := ReplayHandler.run events ReplayHandler.init in
     replay_path ∈ ReplayHandler.calls h →
     ReplayHandler.src_path e' = replay_path' →
     ReplayHandler.on_event e' h = Returned tt h).
Proof.
  intros Hname. split.
  - intros m gd m1 Hrun.
    pose proof (process_replay_outcomes decimal_digit decoder replay_path m) as Hout.
    rewrite Hrun in Hout. destruct Hout as (_ & Hfile & Hgames).
    eapply process_replay_after_insert; [done|]. by rewrite Hname.
  - intros events e' h Hin Hsrc. apply on_event_processed.
    rewrite Hsrc, Hname.
    assert (Hinv : delivered_once h).
    { apply run_delivered_once. split; simpl; [apply NoDup_nil_2|by inversion 1]. }
    by apply Hinv.
Qed.

Lemma dedup_keyed_by_file_name_witness :
  let decoder := λ _ : Path.t, Some (decoded_game (Some "Alice") (Some "Bob") ∅) in
  let first := replay_in "replays" "g.rep" in
  let second := replay_in "backup" "g.rep" in
  let m1 := final_state (RecordManager.process_replay ascii_decimal_digit decoder first
                           new_manager) in
  let h1 := ReplayHandler.run [file_event first 100 false] ReplayHandler.init in
  first ≠ second ∧
  RecordManager.process_replay ascii_decimal_digit decoder second m1 = Returned None m1 ∧
  ReplayHandler.on_event (file_event second 100 false) h1 = Returned tt h1.
Proof.
  intros decoder first second m1 h1.
  destruct (dedup_keyed_by_file_name ascii_decimal_digit decoder decoder first second
              eq_refl) as [Hingest Hwatch].
  split; [discriminate|]. split.
  - eapply (Hingest new_manager). vm_compute. reflexivity.
  - apply (Hwatch [file_event first 100 false]); [|reflexivity].
    vm_compute. apply list_elem_of_here.
Defined.

(** A file seen empty, then filled, then modified again is delivered once,
    also when the callback raises. *)
Example settle_then_deliver_once :
  let path := replay_in "replays" "g.rep" in
  ReplayHandler.calls
    (ReplayHandler.run
       [file_event path 0 false; file_event path 100 true; file_event path 120 false]
       ReplayHandler.init)
  = [path].
Proof. vm_compute. reflexivity. Qed.

(** ** Records against opponents *)

Lemma py_in_local my_names v : py_in v my_names = true ↔ local_name my_names v.
Proof.
  unfold local_name. destruct v as [s|]; simpl.
  - rewrite bool_decide_eq_true. split; [by exists s|]. by intros (? & [= <-] & ?).
  - split; [done|]. by intros (? & [=] & _).
Qed.


Global Instance played_no_later_trans : Transitive played_no_later.
Proof. intros x y z Hxy Hyz. by apply (sql_text_leb_trans _ (played_at y)). Qed.


Lemma resolve_player_name_returns name d :
  ∃ resolved, resolve_player_name name d = Returned resolved d.
Proof. unfold resolve_player_name, _connect. destruct (alias_join name d); by eexists. Qed.

Lemma side_cond my_names (mine other resolved : sql_text) :
  py_in mine my_names && bool_decide (other = resolved) = true ↔
  local_name my_names mine ∧ other = resolved.
Proof. by rewrite andb_true_iff, py_in_local, bool_decide_eq_true. Qed.

Lemma vs_step_verdict my_names resolved g :
  vs_verdict my_names resolved g
    (if py_in (winner_name g) my_names && bool_decide (loser_name g = resolved)
     then "win"
     else if py_in (loser_name g) my_names && bool_decide (winner_name g = resolved)
     then "loss" else "unknown").
Proof.
  unfold vs_verdict. cbv zeta.
  destruct (py_in (winner_name g) my_names && _) eqn:Hwin.
  { apply side_cond in Hwin. split_and!; intros; tauto. }
  assert (¬ (local_name my_names (winner_name g) ∧ loser_name g = resolved)) as Hnwin.
  { intros H%side_cond. congruence. }
  destruct (py_in (loser_name g) my_names && _) eqn:Hloss.
  { apply side_cond in Hloss. split_and!; intros; tauto. }
  assert (¬ (local_name my_names (loser_name g) ∧ winner_name g = resolved)) as Hnloss.
  { intros H%side_cond. congruence. }
  split_and!; intros; tauto.
Qed.

(** The loop of [get_record_vs]. *)
Lemma foldl_vs_step my_names resolved rows wins losses games' :
  ∃ verdicts,
    foldl (vs_step my_names resolved) (wins, losses, games') rows =
      ((wins + length (List.filter (λ gv : game_row * string, String.eqb gv.2 "win") verdicts))%nat,
       (losses + length (List.filter (λ gv : game_row * string, String.eqb gv.2 "loss") verdicts))%nat,
       games' ++ verdicts) ∧
    verdicts.*1 = rows ∧
    Forall (λ gv, vs_verdict my_names resolved gv.1 gv.2) verdicts.
Proof.
  revert wins losses games'. induction rows as [|g rows IH]; intros wins losses games'.
  { exists []. simpl. by rewrite !Nat.add_0_r, app_nil_r. }
  cbn [foldl].
  assert (Hstep : vs_step my_names resolved (wins, losses, games') g =
    if py_in (winner_name g) my_names && bool_decide (loser_name g = resolved)
    then (S wins, losses, games' ++ [(g, "win")])
    else if py_in (loser_name g) my_names && bool_decide (winner_name g = resolved)
    then (wins, S losses, games' ++ [(g, "loss")])
    else (wins, losses, games' ++ [(g, "unknown")])) by reflexivity.
  rewrite Hstep. clear Hstep.
  pose proof (vs_step_verdict my_names resolved g) as Hv.
  destruct (py_in (winner_name g) my_names && bool_decide (loser_name g = resolved)).
  - destruct (IH (S wins) losses (games' ++ [(g, "win")])) as (vs & -> & <- & Hvs).
    exists ((g, "win") :: vs). simpl. rewrite <- app_assoc. split_and!; try done.
    + do 2 f_equal. lia.
    + by constructor.
  - destruct (py_in (loser_name g) my_names && bool_decide (winner_name g = resolved)).
    + destruct (IH wins (S losses) (games' ++ [(g, "loss")])) as (vs & -> & <- & Hvs).
      exists ((g, "loss") :: vs). simpl. rewrite <- app_assoc. split_and!; try done.
      * do 2 f_equal. lia.
      * by constructor.
    + destruct (IH wins losses (games' ++ [(g, "unknown")])) as (vs & -> & <- & Hvs).
      exists ((g, "unknown") :: vs). simpl. rewrite <- app_assoc. split_and!; try done.
      by constructor.
Qed.




(** *** All opponents *)

Lemma filter_length_Permutation {A} (f : A → bool) (l l' : list A) :
  l ≡ₚ l' → length (List.filter f l) = length (List.filter f l').
Proof.
  induction 1 as [|x l l' _ IH|x y l|l l' l'' _ IH1 _ IH2]; simpl; try congruence.
  - destruct (f x); simpl; congruence.
  - destruct (f x), (f y); simpl; congruence.
Qed.















(** The loop counts a game only when exactly one side is a local name. *)
Lemma opponent_of_exactly_one my_names g o won :
  opponent_of my_names g = Some (o, won) →
  (won = true ∧ local_name my_names (winner_name g) ∧
   ¬ local_name my_names (loser_name g) ∧ loser_name g = Some o) ∨
  (won = false ∧ local_name my_names (loser_name g) ∧
   ¬ local_name my_names (winner_name g) ∧ winner_name g = Some o).
Proof.
  unfold opponent_of. cbv zeta.
  destruct (py_in (winner_name g) my_names) eqn:Hw;
    destruct (py_in (loser_name g) my_names) eqn:Hl; simpl.
  - rewrite !andb_false_r. done.
  - rewrite andb_true_r.
    destruct (truthy (loser_name g)).
    + destruct (loser_name g) as [l|] eqn:Hloser; [|done]. intros [= <- <-].
      left. split_and!; try done; [by apply py_in_local|].
      rewrite <- py_in_local. congruence.
    + done.
  - rewrite andb_true_r.
    destruct (truthy (winner_name g)).
    + destruct (winner_name g) as [w|] eqn:Hwinner; [|done]. intros [= <- <-].
      right. split_and!; try done; [by apply py_in_local|].
      rewrite <- py_in_local. congruence.
    + done.
  - done.
Qed.





(** The aggregation example of the specification. *)
Example get_record_vs_example :
  (λ r, (vs_opponent r, vs_wins r, vs_losses r, vs_total r,
         replay_file <$> (g_data <$> (vs_games r).*1)))
    <$> returned (get_record_vs (Some "Bob") alice_store)
  = Some (Some "Bob", 3, 2, 5, ["6.rep"; "4.rep"; "2.rep"; "1.rep"; "5.rep"])%nat.
Proof. vm_compute. reflexivity. Qed.

Example get_all_opponents_example :
  returned (get_all_opponents alice_store)
  = Some [{| os_opponent := "Bob"; os_wins := 3; os_losses := 2; os_total := 5;
             os_last_played := Some "2026-01-06 10:00:00" |};
          {| os_opponent := "Carol"; os_wins := 1; os_losses := 0; os_total := 1;
             os_last_played := Some "2026-01-03 10:00:00" |}].
Proof. vm_compute. reflexivity. Qed.

(** The inference example of the specification's rationale: the most
    frequent name is marked local. *)
Example detect_my_name_example :
  let m := {| RecordManager.db :=
                store_of_games
                  [game_between "1.rep" (Some "Alice") (Some "Bob") None;
                   game_between "2.rep" (Some "Alice") (Some "Carol") None];
              RecordManager._my_names := ∅ |} in
  returned (RecordManager.detect_my_name m) = Some (Some "Alice") ∧
  returned (RecordManager.my_names (final_state (RecordManager.detect_my_name m)))
    = Some {["Alice"]}.
Proof. vm_compute. done. Qed.

(** * Further properties of the record store *)

Lemma find_app_None {A} (test : A → bool) (l l' : list A) :
  List.find test l = None → List.find test (l ++ l') = List.find test l'.
Proof.
  induction l as [|x l IH]; [done|]. simpl. destruct (test x); [done|]. apply IH.
Qed.

(** X1. [get_or_create_player] is idempotent on a name: a second call
    returns the id of the first and leaves the store as the first call left
    it, whether the first call found the player, found an alias, or created
    the player. *)
Theorem get_or_create_player_idempotent (d : database) (n : string) :
  ∃ i d1,
    get_or_create_player (Some n) d = Returned i d1 ∧
    get_or_create_player (Some n) d1 = Returned i d1.
Proof.
  unfold get_or_create_player, _connect.
  destruct (List.find (player_named (Some n)) (players d)) as [p|] eqn:Hp.
  { exists (p_id p), d. by rewrite Hp. }
  destruct (List.find (alias_named (Some n)) (aliases d)) as [a|] eqn:Ha.
  { exists (a_player_id a), d. by rewrite Hp, Ha. }
  eexists _, _. split; [reflexivity|]. simpl.
  rewrite find_app_None by done. simpl.
  unfold player_named at 1. simpl. by rewrite String.eqb_refl.
Qed.

Lemma map_unchanged {A} (f : A → A) (l : list A) :
  (∀ x, x ∈ l → f x = x) → f <$> l = l.
Proof.
  induction l as [|x l IH]; [done|]. intros Hf. simpl. rewrite Hf by left.
  f_equal. apply IH. intros y Hy. apply Hf. by right.
Qed.

(** X2. [set_player_is_me] and [get_my_names]: after the flag of [n] is
    set to [b], a name is listed as local exactly when it is [n], [b] is
    true and a player of that name exists, or it is another name that was
    listed before. No player is created: names stay as they were, and for a
    name without a player the store is unchanged. *)
Theorem set_player_is_me_get_my_names (d : database) (n : string) (b : bool) :
  ∃ d',
    set_player_is_me (Some n) b d = Returned tt d' ∧
    get_my_names d' = Returned (select_my_names d') d' ∧
    (∀ x, x ∈ select_my_names d' ↔
          (x = n ∧ b = true ∧ n ∈ (p_name <$> players d)) ∨
          (x ≠ n ∧ x ∈ select_my_names d)) ∧
    p_name <$> players d' = p_name <$> players d ∧
    (n ∉ (p_name <$> players d) → d' = d).
Proof.
  eexists. split; [reflexivity|]. split; [reflexivity|].
  unfold select_my_names. simpl. split_and!.
  - intros x. induction (players d) as [|p l IH]; simpl.
    { split; [by intros ?%elem_of_nil|]. intros [(_ & _ & ?%elem_of_nil)|[_ ?%elem_of_nil]]; done. }
    destruct (player_named (Some n) p) eqn:Hn; simpl.
    + apply player_named_spec in Hn. destruct b; simpl.
      * rewrite elem_of_cons, IH. destruct (p_is_me p); simpl;
          rewrite ?elem_of_cons; (intuition (subst; try congruence; auto)).
      * rewrite IH. destruct (p_is_me p); simpl; rewrite ?elem_of_cons; (intuition (subst; try congruence; auto)).
    + assert (p_name p ≠ n) by (intros ?%player_named_spec; congruence).
      destruct (p_is_me p); simpl; rewrite ?elem_of_cons, IH; (intuition (subst; try congruence; auto)).
  - rewrite <- list_fmap_compose. apply list_fmap_ext. intros _ p _. simpl.
    by destruct (player_named (Some n) p).
  - intros Hn. destruct d as [ps als gs gps cms]. unfold with_players. simpl in *.
    f_equal. apply map_unchanged. intros p Hp.
    destruct (player_named (Some n) p) eqn:Hpn; [|done].
    apply player_named_spec in Hpn. destruct Hn. rewrite <- Hpn.
    by apply list_elem_of_fmap_2.
Qed.

(** X3. [add_alias] with an alt-name that is already taken: the insert is
    ignored, the alias table stays as it was and the alt-name resolves as
    before, to the player it was first given to. *)
Theorem add_alias_taken_is_ignored (d : database) (P Q : string) :
  schema_ok d →
  Q ∈ (a_alt_name <$> aliases d) →
  ∃ d',
    add_alias (Some P) (Some Q) d = Returned tt d' ∧
    aliases d' = aliases d ∧
    returned (resolve_player_name (Some Q) d') = returned (resolve_player_name (Some Q) d).
Proof.
  intros Hok (a & HaQ & Ha)%list_elem_of_fmap.
  destruct (get_or_create_player_spec d P Hok)
    as (p & d0 & Hrun & Hok0 & Hp & Hal & _ & Hcases).
  unfold add_alias, mbind, M_bind. rewrite Hrun. unfold _connect.
  assert (existsb (alias_named (Some Q)) (aliases d0) = true) as ->.
  { apply existsb_exists. exists a. rewrite Hal, <- list_elem_of_In.
    split; [done|]. by apply alias_named_spec. }
  exists d0. split_and!; try done.
  destruct (proj1 (list_elem_of_fmap _ _ _) (aliases_player_fk d Hok a Ha))
    as (q & Hid & Hq).
  assert (Hq0 : q ∈ players d0).
  { destruct Hcases as [[-> _]|[[-> _]|(_ & _ & _ & ->)]]; try done.
    apply elem_of_app. by left. }
  rewrite HaQ, (resolve_alias d a q), (resolve_alias d0 a q); try done.
  by rewrite Hal.
Qed.

Lemma add_alias_taken_is_ignored_witness :
  let d := final_state (add_alias (Some "A") (Some "B") empty_db) in
  ∃ d',
    add_alias (Some "C") (Some "B") d = Returned tt d' ∧
    aliases d' = aliases d ∧
    returned (resolve_player_name (Some "B") d') = returned (resolve_player_name (Some "B") d).
Proof.
  intros d. apply (add_alias_taken_is_ignored d "C" "B").
  - destruct (add_alias_spec empty_db "A" "B" schema_ok_empty) as (p & a & d' & Hrun & Hok & _).
    { simpl. apply not_elem_of_nil. }
    unfold d. by rewrite Hrun.
  - vm_compute. apply list_elem_of_here.
Defined.

(** X4. [resolve_player_name] never changes the store. Where no alias
    row of that alt-name points to a player (also for [None]), it returns
    the name it was given. Where one does, it returns the name of such a
    player, not the name it was given; on a store that keeps the schema this
    is the name of the one player the alias of that alt-name points to. *)
Theorem resolve_player_name_result (name : sql_text) (d : database) :
  ∃ r,
    resolve_player_name name d = Returned r d ∧
    (r = name ∨ ∃ a p, alias_points_to d name a p ∧ r = Some (p_name p)) ∧
    ((∀ a p, ¬ alias_points_to d name a p) → r = name) ∧
    ((∃ a p, alias_points_to d name a p) →
     ∃ a p, alias_points_to d name a p ∧ r = Some (p_name p)) ∧
    (schema_ok d → ∀ a p, alias_points_to d name a p → r = Some (p_name p)).
Proof.
  assert (Hjoined : ∀ a p, alias_points_to d name a p → p_name p ∈ alias_join name d).
  { intros a p (Ha & Hp & -> & Hid). unfold alias_join.
    apply list_elem_of_bind. exists a. split.
    - apply list_elem_of_fmap_2, list_elem_of_In, List.filter_In.
      split; [by apply list_elem_of_In|]. by apply Z.eqb_eq.
    - apply list_elem_of_In, List.filter_In.
      split; [by apply list_elem_of_In|]. by apply alias_named_spec. }
  assert (Hunique : schema_ok d → ∀ a p, alias_points_to d name a p →
            resolve_player_name name d = Returned (Some (p_name p)) d).
  { intros Hok a p (Ha & Hp & -> & Hid). by apply resolve_alias. }
  revert Hunique. unfold resolve_player_name, _connect.
  destruct (alias_join name d) as [|row rows] eqn:Hjoin; intros Hunique.
  { exists name. split_and!; [done|by left|done| |].
    - intros (a & p & Hap). by apply Hjoined, elem_of_nil in Hap.
    - intros Hok a p Hap. by apply Hjoined, elem_of_nil in Hap. }
  exists (Some row).
  assert (Hrow : row ∈ alias_join name d) by (rewrite Hjoin; by left).
  unfold alias_join in Hrow.
  apply list_elem_of_bind in Hrow as (a & Hrow & Ha).
  apply list_elem_of_fmap in Hrow as (p & -> & Hp).
  apply list_elem_of_In, List.filter_In in Ha as [Ha Hna].
  apply list_elem_of_In, List.filter_In in Hp as [Hp Hid].
  apply list_elem_of_In in Ha, Hp. apply Z.eqb_eq in Hid.
  destruct name as [n|]; [|by destruct a].
  apply alias_named_spec in Hna.
  assert (Hap : alias_points_to d (Some n) a p) by (by rewrite <- Hna).
  split_and!; [done| | | |].
  - right. by exists a, p.
  - intros Hnone. by destruct (Hnone a p).
  - intros _. by exists a, p.
  - intros Hok a' p' Hap'. by injection (Hunique Hok a' p' Hap') as ->.
Qed.

(** "Al" is an alias of "Alice": the name resolves to "Alice", and a name
    that is no alias resolves to itself. *)
Example resolve_player_name_example :
  let d := final_state (add_alias (Some "Alice") (Some "Al") empty_db) in
  returned (resolve_player_name (Some "Al") d) = Some (Some "Alice") ∧
  returned (resolve_player_name (Some "Bob") d) = Some (Some "Bob") ∧
  returned (resolve_player_name None d) = Some None.
Proof. vm_compute. done. Qed.

(** ** The schema is an invariant *)

Lemma integrity_empty : integrity empty_db.
Proof.
  split; simpl; [apply schema_ok_empty|apply NoDup_nil_2|by inversion 1..].
Qed.

Lemma integrity_more_players d l :
  integrity d → schema_ok (with_players d (players d ++ l)) →
  integrity (with_players d (players d ++ l)).
Proof.
  intros [H1 H2 H3 H4] Hok. split; simpl; try done.
  - intros r [??]%H3. split; [done|]. rewrite fmap_app. apply elem_of_app. by left.
  - intros r [??]%H4. split; [done|]. rewrite fmap_app. apply elem_of_app. by left.
Qed.

Lemma integrity_get_or_create_player name d :
  integrity d → integrity (final_state (get_or_create_player name d)).
Proof.
  intros Hd. unfold get_or_create_player, _connect.
  destruct (List.find _ (players d)) eqn:Hp; simpl; [done|].
  destruct (List.find _ (aliases d)) eqn:Ha; simpl; [done|].
  destruct name as [n|]; simpl; [|done].
  apply integrity_more_players; [done|].
  apply schema_ok_add_player; [apply Hd|by apply find_player_None].
Qed.

Lemma integrity_set_player_is_me name b d :
  integrity d → integrity (final_state (set_player_is_me name b d)).
Proof.
  intros [[H1 H2 H3 H4 H5] H6 H7 H8]. simpl.
  assert (Hid : ∀ l : list player_row,
    p_id <$> ((λ p, if player_named name p
                    then {| p_id := p_id p; p_name := p_name p; p_is_me := b |}
                    else p) <$> l) = p_id <$> l).
  { intros l. rewrite <- list_fmap_compose. apply list_fmap_ext. intros _ p _. simpl.
    by destruct (player_named name p). }
  assert (Hname : ∀ l : list player_row,
    p_name <$> ((λ p, if player_named name p
                      then {| p_id := p_id p; p_name := p_name p; p_is_me := b |}
                      else p) <$> l) = p_name <$> l).
  { intros l. rewrite <- list_fmap_compose. apply list_fmap_ext. intros _ p _. simpl.
    by destruct (player_named name p). }
  split; [split|..]; simpl; rewrite ?Hid, ?Hname; done.
Qed.

Lemma integrity_add_alias player_name alt_name d :
  integrity d → integrity (final_state (add_alias player_name alt_name d)).
Proof.
  intros Hd. pose proof (integrity_get_or_create_player player_name d Hd) as H0.
  unfold add_alias, mbind, M_bind.
  destruct (get_or_create_player player_name d) as [i d0|e d0]; simpl in *; [|done].
  unfold _connect. destruct alt_name as [alt|]; [|done].
  destruct (existsb _ (aliases d0)) eqn:Hex; [done|].
  case_bool_decide as Hi; simpl; [|done].
  destruct H0 as [Hok H6 H7 H8]. split; try done.
  apply schema_ok_add_alias; try done.
  intros Hin. apply list_elem_of_fmap in Hin as (a & Heq & Ha).
  apply not_true_iff_false in Hex. apply Hex, existsb_exists. exists a.
  rewrite <- list_elem_of_In. split; [done|]. by apply alias_named_spec.
Qed.

Lemma has_game_false_not_elem n d :
  has_game n d = false → n ∉ (replay_file <$> (g_data <$> games d)).
Proof.
  intros Hhas (gd & -> & (g & -> & Hg)%list_elem_of_fmap)%list_elem_of_fmap.
  apply not_true_iff_false in Hhas. apply Hhas, existsb_exists. exists g.
  rewrite <- list_elem_of_In. split; [done|]. apply String.eqb_refl.
Qed.

Lemma integrity_insert_game gd d :
  integrity d → integrity (final_state (insert_game gd d)).
Proof.
  intros [[H1 H2 H3 H4 H5] H6 H7 H8]. unfold insert_game, _connect.
  destruct (has_game (replay_file gd) d) eqn:Hhas; simpl; [done|].
  split; [split|..]; simpl; try done.
  - rewrite !fmap_app. apply NoDup_app. split; [done|]. split; [|apply NoDup_singleton].
    intros n Hn ->%list_elem_of_singleton. by apply has_game_false_not_elem in Hhas.
  - rewrite fmap_app. apply NoDup_app. split; [done|]. split; [|apply NoDup_singleton].
    intros i Hi ->%list_elem_of_singleton. by apply next_id_fresh in Hi.
  - intros r [??]%H7. split; [|done]. rewrite fmap_app. apply elem_of_app. by left.
  - intros r [??]%H8. split; [|done]. rewrite fmap_app. apply elem_of_app. by left.
Qed.

Lemma integrity_insert_game_player game_id player_id race is_winner apm d :
  integrity d →
  integrity (final_state (insert_game_player game_id player_id race is_winner apm d)).
Proof.
  intros [[H1 H2 H3 H4 H5] H6 H7 H8]. unfold insert_game_player, _connect.
  destruct (_ && _) eqn:Hfk; simpl; [|done].
  apply andb_true_iff in Hfk as [Hg%bool_decide_eq_true Hp%bool_decide_eq_true].
  split; [split|..]; simpl; try done.
  intros r [Hr| ->%list_elem_of_singleton]%elem_of_app; [by apply H7|done].
Qed.

Lemma integrity_insert_chat_message game_id player_id message game_time frame d :
  integrity d →
  integrity (final_state (insert_chat_message game_id player_id message game_time frame d)).
Proof.
  intros [[H1 H2 H3 H4 H5] H6 H7 H8]. unfold insert_chat_message, _connect.
  destruct (_ && _) eqn:Hfk; simpl; [|done].
  apply andb_true_iff in Hfk as [Hg%bool_decide_eq_true Hp%bool_decide_eq_true].
  split; [split|..]; simpl; try done.
  intros r [Hr| ->%list_elem_of_singleton]%elem_of_app; [by apply H8|done].
Qed.

(** X5. Every writing method of [Database] keeps the schema: on a store
    with unique player ids and names, unique alt-names and replay files,
    unique game ids and resolving foreign keys, the store it leaves behind,
    whether it returns or raises, is again such a store. *)
Theorem database_methods_keep_integrity (d : database) :
  integrity d →
  (∀ name, integrity (final_state (get_or_create_player name d))) ∧
  (∀ name is_me, integrity (final_state (set_player_is_me name is_me d))) ∧
  (∀ player_name alt_name, integrity (final_state (add_alias player_name alt_name d))) ∧
  (∀ game_data', integrity (final_state (insert_game game_data' d))) ∧
  (∀ game_id player_id race is_winner apm,
     integrity (final_state (insert_game_player game_id player_id race is_winner apm d))) ∧
  (∀ game_id player_id message game_time frame,
     integrity (final_state
       (insert_chat_message game_id player_id message game_time frame d))).
Proof.
  intros Hd. split_and!; intros.
  - by apply integrity_get_or_create_player.
  - by apply integrity_set_player_is_me.
  - by apply integrity_add_alias.
  - by apply integrity_insert_game.
  - by apply integrity_insert_game_player.
  - by apply integrity_insert_chat_message.
Qed.

Lemma database_methods_keep_integrity_witness :
  (∀ name, integrity (final_state (get_or_create_player name empty_db))) ∧
  (∀ name is_me, integrity (final_state (set_player_is_me name is_me empty_db))) ∧
  (∀ player_name alt_name,
     integrity (final_state (add_alias player_name alt_name empty_db))) ∧
  (∀ game_data', integrity (final_state (insert_game game_data' empty_db))) ∧
  (∀ game_id player_id race is_winner apm,
     integrity (final_state
       (insert_game_player game_id player_id race is_winner apm empty_db))) ∧
  (∀ game_id player_id message game_time frame,
     integrity (final_state
       (insert_chat_message game_id player_id message game_time frame empty_db))).
Proof. apply (database_methods_keep_integrity empty_db). exact integrity_empty. Defined.

Lemma bind_preserves {S A B} (P : S → Prop) (op : M S A) (k : A → M S B) s :
  P (final_state (op s)) →
  (∀ a s', P s' → P (final_state (k a s'))) →
  P (final_state ((op ≫= k) s)).
Proof.
  intros Hop Hk. unfold mbind, M_bind. destruct (op s) as [a s'|e s']; simpl in *; auto.
Qed.

Lemma on_db_preserves {A} (P : database → Prop) (op : M database A) m :
  P (final_state (op (RecordManager.db m))) →
  P (RecordManager.db (final_state (RecordManager.on_db op m))).
Proof. by rewrite on_db_final_state. Qed.

Lemma integrity_save_players game_id parser m :
  integrity (RecordManager.db m) →
  integrity (RecordManager.db (final_state (RecordManager._save_players game_id parser m))).
Proof.
  unfold RecordManager._save_players.
  apply (for_each_preserves (λ s, integrity (RecordManager.db s))).
  intros p s Hs. apply (bind_preserves (λ s, integrity (RecordManager.db s))).
  - by apply on_db_preserves, integrity_get_or_create_player.
  - intros i s' Hs'. by apply on_db_preserves, integrity_insert_game_player.
Qed.

Lemma integrity_save_chat game_id parser m :
  integrity (RecordManager.db m) →
  integrity (RecordManager.db (final_state (RecordManager._save_chat game_id parser m))).
Proof.
  unfold RecordManager._save_chat.
  apply (for_each_preserves (λ s, integrity (RecordManager.db s))).
  intros p s Hs. apply (bind_preserves (λ s, integrity (RecordManager.db s))).
  - by apply on_db_preserves, integrity_get_or_create_player.
  - intros i s' Hs'. by apply on_db_preserves, integrity_insert_chat_message.
Qed.

Lemma integrity_process_replay decimal_digit decoder replay_path m :
  integrity (RecordManager.db m) →
  integrity (RecordManager.db
    (final_state (RecordManager.process_replay decimal_digit decoder replay_path m))).
Proof.
  intros Hm. unfold RecordManager.process_replay.
  apply (bind_preserves (λ s, integrity (RecordManager.db s))).
  { by apply on_db_preserves. }
  intros [|] s Hs; [done|].
  destruct (decoder replay_path) as [parser|]; [|done].
  apply (bind_preserves (λ s, integrity (RecordManager.db s))).
  { by destruct (_build_game_data_returns decimal_digit parser (Path.name replay_path) s)
      as (gd & -> & _). }
  intros gd s1 Hs1. apply (bind_preserves (λ s, integrity (RecordManager.db s))).
  { by apply on_db_preserves, integrity_insert_game. }
  intros game_id s2 Hs2. apply (bind_preserves (λ s, integrity (RecordManager.db s))).
  { by apply integrity_save_players. }
  intros [] s3 Hs3. apply (bind_preserves (λ s, integrity (RecordManager.db s))).
  { by apply integrity_save_chat. }
  by intros [] s4 Hs4.
Qed.

Lemma integrity_import_folder decimal_digit decoder rep_files m :
  integrity (RecordManager.db m) →
  integrity (RecordManager.db
    (final_state (RecordManager.import_folder decimal_digit decoder rep_files m))).
Proof.
  revert m. induction rep_files as [|f rest IH]; intros m Hm; [done|].
  simpl. apply (bind_preserves (λ s, integrity (RecordManager.db s))).
  { by apply integrity_process_replay. }
  intros result s Hs. apply (bind_preserves (λ s, integrity (RecordManager.db s))).
  { by apply IH. }
  by intros count s' Hs'.
Qed.

Lemma integrity_detect_my_name m :
  integrity (RecordManager.db m) →
  integrity (RecordManager.db (final_state (RecordManager.detect_my_name m))).
Proof.
  intros Hm. unfold RecordManager.detect_my_name.
  apply (bind_preserves (λ s, integrity (RecordManager.db s))).
  { by apply on_db_preserves. }
  intros [|[best n] rest] s Hs; [done|].
  apply (bind_preserves (λ s, integrity (RecordManager.db s))).
  { by apply on_db_preserves. }
  intros [|first others] s1 Hs1; [|done].
  destruct (match rest with [] => false | _ => _ end); [done|].
  apply (bind_preserves (λ s, integrity (RecordManager.db s))).
  { by apply on_db_preserves, integrity_set_player_is_me. }
  intros [] s2 Hs2. apply (bind_preserves (λ s, integrity (RecordManager.db s))).
  { done. }
  by intros [] s3 Hs3.
Qed.

(** X6. Ingestion and inference keep the schema: from a store that
    satisfies it, [process_replay], [import_folder] and [detect_my_name]
    leave a store that satisfies it, also when they stop on an exception
    with only a part of their writes done. *)
Theorem record_manager_keeps_integrity decimal_digit decoder (m : RecordManager.t) :
  integrity (RecordManager.db m) →
  (∀ replay_path, integrity (RecordManager.db
     (final_state (RecordManager.process_replay decimal_digit decoder replay_path m)))) ∧
  (∀ rep_files, integrity (RecordManager.db
     (final_state (RecordManager.import_folder decimal_digit decoder rep_files m)))) ∧
  integrity (RecordManager.db (final_state (RecordManager.detect_my_name m))).
Proof.
  intros Hm. split_and!; intros.
  - by apply integrity_process_replay.
  - by apply integrity_import_folder.
  - by apply integrity_detect_my_name.
Qed.

Lemma record_manager_keeps_integrity_witness :
  let decoder := λ _ : Path.t, Some (decoded_game (Some "Alice") None ∅) in
  (∀ replay_path, integrity (RecordManager.db
     (final_state (RecordManager.process_replay ascii_decimal_digit decoder replay_path
                     new_manager)))) ∧
  (∀ rep_files, integrity (RecordManager.db
     (final_state (RecordManager.import_folder ascii_decimal_digit decoder rep_files
                     new_manager)))) ∧
  integrity (RecordManager.db (final_state (RecordManager.detect_my_name new_manager))).
Proof.
  intros decoder.
  apply (record_manager_keeps_integrity ascii_decimal_digit decoder new_manager).
  exact integrity_empty.
Defined.

(** ** Queries after ingestion *)

Lemma get_record_vs_run name d resolved :
  resolve_player_name name d = Returned resolved d →
  ∃ r, get_record_vs name d = Returned r d ∧
    vs_opponent r = resolved ∧
    (vs_games r).*1 = sort_by played_at_desc (List.filter (involves resolved) (games d)).
Proof.
  intros Hres. unfold get_record_vs, mbind, M_bind. rewrite Hres.
  unfold get_my_names, _connect. cbv beta iota.
  destruct (foldl_vs_step (list_to_set (select_my_names d)) resolved
              (sort_by played_at_desc (List.filter (involves resolved) (games d)))
              O O []) as (vs & Hfold & Hrows & _).
  rewrite Hfold. eexists. split; [reflexivity|]. by simpl.
Qed.

Lemma get_or_create_player_aliases name d :
  aliases (final_state (get_or_create_player name d)) = aliases d.
Proof.
  unfold get_or_create_player, _connect.
  destruct (List.find _ (players d)); simpl; [done|].
  destruct (List.find _ (aliases d)); simpl; [done|].
  by destruct name.
Qed.

Lemma process_replay_aliases_eq decimal_digit decoder replay_path (A : list alias_row) m :
  aliases (RecordManager.db m) = A →
  aliases (RecordManager.db
    (final_state (RecordManager.process_replay decimal_digit decoder replay_path m))) = A.
Proof.
  set (P := λ s, aliases (RecordManager.db s) = A). intros Hm.
  unfold RecordManager.process_replay.
  apply (bind_preserves P); [by apply (on_db_preserves (λ d, aliases d = A))|].
  intros [|] s Hs; [done|].
  destruct (decoder replay_path) as [parser|]; [|done].
  apply (bind_preserves P).
  { by destruct (_build_game_data_returns decimal_digit parser (Path.name replay_path) s)
      as (gd & -> & _). }
  intros gd s1 Hs1. apply (bind_preserves P).
  { apply (on_db_preserves (λ d, aliases d = A)). unfold insert_game, _connect.
    by destruct (has_game _ _). }
  intros game_id s2 Hs2. apply (bind_preserves P).
  { unfold RecordManager._save_players. apply (for_each_preserves P); [|done].
    intros p s' Hs'. apply (bind_preserves P).
    - apply (on_db_preserves (λ d, aliases d = A)). by rewrite get_or_create_player_aliases.
    - intros i s'' Hs''. apply (on_db_preserves (λ d, aliases d = A)).
      unfold insert_game_player, _connect. by destruct (_ && _). }
  intros [] s3 Hs3. apply (bind_preserves P).
  { unfold RecordManager._save_chat. apply (for_each_preserves P); [|done].
    intros p s' Hs'. apply (bind_preserves P).
    - apply (on_db_preserves (λ d, aliases d = A)). by rewrite get_or_create_player_aliases.
    - intros i s'' Hs''. apply (on_db_preserves (λ d, aliases d = A)).
      unfold insert_chat_message, _connect. by destruct (_ && _). }
  by intros [] s4 Hs4.
Qed.

Lemma process_replay_aliases decimal_digit decoder replay_path m :
  aliases (RecordManager.db
    (final_state (RecordManager.process_replay decimal_digit decoder replay_path m)))
  = aliases (RecordManager.db m).
Proof. by apply process_replay_aliases_eq. Qed.

(** X7. A stored game is found again: after [process_replay] has returned
    a record, [get_record_vs] for its winner's or loser's name, when that
    name is not an alt-name, lists a game row that carries exactly the
    returned record (same map, duration text, names, result). *)
Theorem stored_game_is_found
    decimal_digit decoder replay_path (m m1 : RecordManager.t) (gd : game_data) (w : string) :
  RecordManager.process_replay decimal_digit decoder replay_path m = Returned (Some gd) m1 →
  winner_name gd = Some w ∨ loser_name gd = Some w →
  w ∉ (a_alt_name <$> aliases (RecordManager.db m)) →
  ∃ r, get_record_vs (Some w) (RecordManager.db m1) = Returned r (RecordManager.db m1) ∧
    vs_opponent r = Some w ∧
    ∃ row, row ∈ (vs_games r).*1 ∧ g_data row = gd.
Proof.
  intros Hrun Hside Hw.
  pose proof (process_replay_outcomes decimal_digit decoder replay_path m) as Hout.
  pose proof (process_replay_aliases decimal_digit decoder replay_path m) as Hal.
  rewrite Hrun in Hout, Hal. simpl in Hal. destruct Hout as (_ & _ & Hgames).
  rewrite <- Hal in Hw.
  destruct (get_record_vs_run (Some w) (RecordManager.db m1) (Some w)
              (resolve_unaliased _ _ Hw)) as (r & Hr & Hopp & Hrows).
  exists r. split_and!; try done.
  eexists {| g_id := _; g_data := gd |}. split; [|done].
  rewrite Hrows. apply sort_by_elem_of.
  apply list_elem_of_In, List.filter_In. split.
  - apply list_elem_of_In. rewrite Hgames. apply elem_of_app. right. by left.
  - unfold involves. simpl.
    destruct Hside as [-> | ->]; simpl; rewrite String.eqb_refl; by rewrite ?orb_true_r.
Qed.

Lemma stored_game_is_found_witness :
  let decoder := λ _ : Path.t, Some (decoded_game (Some "Alice") (Some "Bob") ∅) in
  let m1 := final_state (RecordManager.process_replay ascii_decimal_digit decoder
                           (replay_in "replays" "g.rep") new_manager) in
  ∃ r, get_record_vs (Some "Bob") (RecordManager.db m1) = Returned r (RecordManager.db m1) ∧
    vs_opponent r = Some "Bob" ∧
    ∃ row : game_row, row ∈ (vs_games r).*1 ∧
      map_name row = Some "Fighting Spirit" ∧ duration_text row = Some "10:00".
Proof.
  intros decoder m1.
  destruct (stored_game_is_found ascii_decimal_digit decoder (replay_in "replays" "g.rep")
              new_manager m1
              {| replay_file := "g.rep"; played_at := None; duration_seconds := None;
                 duration_text := Some "10:00"; map_name := Some "Fighting Spirit";
                 map_tileset := None; game_type := Some "1v1";
                 winner_name := Some "Alice"; loser_name := Some "Bob";
                 winner_race := Some "Zerg"; loser_race := Some "Terran";
                 my_result := Some "unknown" |} "Bob")
    as (r & Hr & Hopp & row & Hrow & Hdata).
  - vm_compute. reflexivity.
  - by right.
  - simpl. apply not_elem_of_nil.
  - exists r. split_and!; try done. exists row. by rewrite Hdata.
Defined.

(** X8. A query under an alt-name is a query under the canonical name:
    [get_record_vs] for the alt-name of an alias lists exactly the games
    whose winner or loser is the player's own name. Games stored with the
    alt-name itself as winner or loser are listed only if the other side is
    the canonical name. *)
Theorem get_record_vs_alias_queries_canonical (d : database) (a : alias_row) (p : player_row) :
  schema_ok d → a ∈ aliases d → p ∈ players d → p_id p = a_player_id a →
  ∃ r, get_record_vs (Some (a_alt_name a)) d = Returned r d ∧
    vs_opponent r = Some (p_name p) ∧
    ∀ g : game_row, g ∈ (vs_games r).*1 ↔
         g ∈ games d ∧ (winner_name g = Some (p_name p) ∨ loser_name g = Some (p_name p)).
Proof.
  intros Hok Ha Hp Hid.
  destruct (get_record_vs_run (Some (a_alt_name a)) d (Some (p_name p))
              (resolve_alias d a p Hok Ha Hp Hid)) as (r & Hr & Hopp & Hrows).
  exists r. split_and!; try done. intros g.
  rewrite Hrows, sort_by_elem_of, list_elem_of_In, List.filter_In, <- list_elem_of_In.
  unfold involves. rewrite orb_true_iff.
  assert (Heq : ∀ v : sql_text, sql_eq v (Some (p_name p)) = true ↔ v = Some (p_name p)).
  { intros [s|]; simpl; [|done]. rewrite String.eqb_eq. split; congruence. }
  by rewrite !Heq.
Qed.

Lemma get_record_vs_alias_queries_canonical_witness :
  let d := final_state
    ((add_alias (Some "Alice") (Some "Al");;
      insert_game (game_between "1.rep" (Some "Al") (Some "Bob") None);;
      insert_game (game_between "2.rep" (Some "Alice") (Some "Bob") None)) empty_db) in
  ∃ r, get_record_vs (Some "Al") d = Returned r d ∧
    vs_opponent r = Some "Alice" ∧
    replay_file <$> (g_data <$> (vs_games r).*1) = ["2.rep"].
Proof.
  intros d.
  destruct (get_record_vs_alias_queries_canonical d
              {| a_id := 1; a_player_id := 1; a_alt_name := "Al" |}
              {| p_id := 1; p_name := "Alice"; p_is_me := false |})
    as (r & Hr & Hopp & _).
  - apply integrity_schema. unfold d.
    apply (bind_preserves integrity); [apply integrity_add_alias, integrity_empty|].
    intros _ s Hs. apply (bind_preserves integrity); [by apply integrity_insert_game|].
    intros _ s' Hs'. by apply integrity_insert_game.
  - vm_compute. apply list_elem_of_here.
  - vm_compute. apply list_elem_of_here.
  - reflexivity.
  - exists r. split_and!; try done.
    assert (Hd : returned (get_record_vs (Some "Al") d) = Some r).
    { simpl in Hr. by rewrite Hr. }
    vm_compute in Hd. by injection Hd as <-.
Defined.

(** ** Batch import *)

Lemma import_folder_cons decimal_digit decoder f rest m :
  RecordManager.import_folder decimal_digit decoder (f :: rest) m =
    match RecordManager.process_replay decimal_digit decoder f m with
    | Returned result s =>
      match RecordManager.import_folder decimal_digit decoder rest s with
      | Returned count s' => Returned (if result is Some _ then S count else count) s'
      | Raised e s' => Raised e s'
      end
    | Raised e s => Raised e s
    end.
Proof. reflexivity. Qed.

(** X9. The count [import_folder] returns is the number of Game rows it
    added, and at most the number of files it was given. *)
Theorem import_folder_counts_new_games
    decimal_digit decoder (rep_files : list Path.t) (m m' : RecordManager.t) (n : nat) :
  RecordManager.import_folder decimal_digit decoder rep_files m = Returned n m' →
  length (games (RecordManager.db m')) = (length (games (RecordManager.db m)) + n)%nat ∧
  (n ≤ length rep_files)%nat.
Proof.
  revert m n. induction rep_files as [|f rest IH]; intros m n Hrun.
  { injection Hrun as <- <-. simpl. lia. }
  rewrite import_folder_cons in Hrun.
  pose proof (process_replay_outcomes decimal_digit decoder f m) as Hout.
  destruct (RecordManager.process_replay decimal_digit decoder f m) as [result s|e s];
    [|done].
  destruct (RecordManager.import_folder decimal_digit decoder rest s) as [count s'|e s']
    eqn:Hrest; [|done].
  injection Hrun as <- <-. apply IH in Hrest as [Hlen Hle]. rewrite Hlen.
  destruct result as [gd|].
  - destruct Hout as (_ & _ & ->). rewrite length_app. simpl. lia.
  - destruct Hout as [-> _]. simpl. lia.
Qed.

Lemma import_folder_counts_new_games_witness :
  let decoder := λ p : Path.t,
    if String.eqb (Path.name p) "bad.rep" then None
    else Some (decoded_game (Some "Alice") (Some "Bob") ∅) in
  let files := [replay_in "a" "1.rep"; replay_in "a" "bad.rep"; replay_in "b" "1.rep";
                replay_in "b" "2.rep"] in
  let o := RecordManager.import_folder ascii_decimal_digit decoder files new_manager in
  returned o = Some 2%nat ∧
  length (games (RecordManager.db (final_state o))) = (0 + 2)%nat ∧ (2 ≤ 4)%nat.
Proof.
  intros decoder files o. split; [vm_compute; reflexivity|].
  apply (import_folder_counts_new_games ascii_decimal_digit decoder files new_manager).
  vm_compute. reflexivity.
Defined.

Lemma has_game_prefix n d d' :
  games d `prefix_of` games d' → has_game n d = true → has_game n d' = true.
Proof.
  intros [l Hl]. unfold has_game. rewrite Hl, existsb_app. by intros ->.
Qed.

Lemma process_replay_undecodable decimal_digit decoder replay_path m :
  decoder replay_path = None →
  RecordManager.process_replay decimal_digit decoder replay_path m = Returned None m.
Proof.
  intros Hdec. destruct m as [d mine].
  unfold RecordManager.process_replay, mbind, M_bind. rewrite on_db_run.
  unfold game_exists, _connect. rewrite Hdec. by destruct (has_game _ d).
Qed.

Lemma import_folder_covers decimal_digit decoder rep_files m m' n :
  RecordManager.import_folder decimal_digit decoder rep_files m = Returned n m' →
  games (RecordManager.db m) `prefix_of` games (RecordManager.db m') ∧
  ∀ f, f ∈ rep_files →
       has_game (Path.name f) (RecordManager.db m') = true ∨ decoder f = None.
Proof.
  revert m n. induction rep_files as [|f rest IH]; intros m n Hrun.
  { injection Hrun as <- <-. split; [done|]. by intros f ?%elem_of_nil. }
  rewrite import_folder_cons in Hrun.
  pose proof (process_replay_outcomes decimal_digit decoder f m) as Hout.
  destruct (RecordManager.process_replay decimal_digit decoder f m) as [result s|e s];
    [|done].
  destruct (RecordManager.import_folder decimal_digit decoder rest s) as [count s'|e s']
    eqn:Hrest; [|done].
  injection Hrun as <- <-. apply IH in Hrest as [Hpre Hcov].
  assert (Hms : games (RecordManager.db m) `prefix_of` games (RecordManager.db s)).
  { destruct result as [gd|].
    - destruct Hout as (_ & _ & ->). by eexists.
    - by destruct Hout as [-> _]. }
  split; [by etrans|].
  intros g [->|Hg]%elem_of_cons; [|by apply Hcov].
  destruct result as [gd|].
  - left. apply (has_game_prefix _ (RecordManager.db s)); [done|].
    destruct Hout as (_ & Hfile & Hgames). unfold has_game.
    rewrite Hgames, existsb_app. simpl.
    by rewrite Hfile, String.eqb_refl, orb_true_r.
  - destruct Hout as [Heq [Hhas|Hdec]]; [left|by right].
    apply (has_game_prefix _ (RecordManager.db m)); [by etrans|done].
Qed.

(** X10. Importing a folder again is a no-op: when [import_folder] has
    returned, a second run over the same files with the same decoder
    returns 0 and leaves the state as it is. Files already stored are
    skipped, and files the decoder rejects are rejected again. *)
Theorem import_folder_again_is_noop
    decimal_digit decoder (rep_files : list Path.t) (m m1 : RecordManager.t) (n : nat) :
  RecordManager.import_folder decimal_digit decoder rep_files m = Returned n m1 →
  RecordManager.import_folder decimal_digit decoder rep_files m1 = Returned O m1.
Proof.
  intros [_ Hcov]%import_folder_covers.
  induction rep_files as [|f rest IH]; [done|].
  rewrite import_folder_cons.
  assert (RecordManager.process_replay decimal_digit decoder f m1 = Returned None m1) as ->.
  { destruct (Hcov f) as [Hhas|Hdec]; [by left| |].
    - by apply process_replay_skip.
    - by apply process_replay_undecodable. }
  rewrite IH; [done|]. intros g Hg. apply Hcov. by right.
Qed.

Lemma import_folder_again_is_noop_witness :
  let decoder := λ p : Path.t,
    if String.eqb (Path.name p) "bad.rep" then None
    else Some (decoded_game (Some "Alice") (Some "Bob") ∅) in
  let files := [replay_in "a" "1.rep"; replay_in "a" "bad.rep"; replay_in "b" "2.rep"] in
  let m1 := final_state (RecordManager.import_folder ascii_decimal_digit decoder files
                           new_manager) in
  RecordManager.import_folder ascii_decimal_digit decoder files m1 = Returned O m1.
Proof.
  intros decoder files m1.
  eapply (import_folder_again_is_noop ascii_decimal_digit decoder files new_manager).
  vm_compute. reflexivity.
Defined.

(** ** Inference, once made, is stable *)

Lemma marked_names d n x :
  x ∈ select_my_names (final_state (set_player_is_me (Some n) true d)) →
  x = n ∨ x ∈ select_my_names d.
Proof.
  unfold select_my_names. simpl. induction (players d) as [|p l IH]; simpl.
  { by intros ?%elem_of_nil. }
  destruct (player_named (Some n) p) eqn:Hn; simpl.
  - apply player_named_spec in Hn.
    intros [->|Hx]%elem_of_cons; [by left|].
    destruct (IH Hx) as [->|Hin]; [by left|]. right.
    destruct (p_is_me p); simpl; [by right|done].
  - destruct (p_is_me p); simpl; [|done].
    intros [->|Hx]%elem_of_cons; [right; by left|].
    destruct (IH Hx) as [->|Hin]; [by left|]. right. by right.
Qed.

Lemma set_player_is_me_twice n b d :
  final_state (set_player_is_me (Some n) b
                 (final_state (set_player_is_me (Some n) b d)))
  = final_state (set_player_is_me (Some n) b d).
Proof.
  simpl. unfold with_players. simpl. f_equal.
  rewrite <- list_fmap_compose. apply list_fmap_ext. intros _ p _. simpl.
  destruct (player_named (Some n) p) eqn:Hn; simpl; [|by rewrite Hn].
  by rewrite (proj2 (player_named_spec n _)) by (by apply player_named_spec in Hn).
Qed.

(** X11. [detect_my_name] is stable: when it has returned a name, a second
    call returns the same name and changes nothing, whether the name was
    already marked, was marked by the first call, or could not be marked in
    the store for want of a player row. *)
Theorem detect_my_name_stable (m m1 : RecordManager.t) (n : string) :
  RecordManager.detect_my_name m = Returned (Some n) m1 →
  RecordManager.detect_my_name m1 = Returned (Some n) m1.
Proof.
  destruct m as [d mine].
  unfold RecordManager.detect_my_name at 1. unfold mbind, M_bind.
  rewrite on_db_run. unfold get_player_name_counts, _connect.
  destruct (select_name_counts d) as [|[best k] rest] eqn:Hcounts; [done|].
  rewrite on_db_run. unfold get_my_names, _connect.
  destruct (select_my_names d) as [|first others] eqn:Hmine.
  2:{ intros [= <- <-].
      unfold RecordManager.detect_my_name, mbind, M_bind.
      rewrite on_db_run. unfold get_player_name_counts, _connect. rewrite Hcounts.
      rewrite on_db_run. unfold get_my_names, _connect. by rewrite Hmine. }
  destruct (match rest with [] => false | _ => _ end) eqn:Htie; [done|].
  rewrite on_db_run. cbn [modify mret M_ret RecordManager.db RecordManager._my_names].
  intros [= <- <-].
  unfold RecordManager.detect_my_name, mbind, M_bind.
  rewrite on_db_run. unfold get_player_name_counts, _connect.
  change (select_name_counts (with_players d _)) with (select_name_counts d).
  rewrite Hcounts. rewrite on_db_run. unfold get_my_names, _connect.
  destruct (select_my_names (with_players d _)) as [|first others] eqn:Hmine'.
  - rewrite Htie, on_db_run.
    cbn [modify mret M_ret RecordManager.db RecordManager._my_names].
    pose proof (set_player_is_me_twice best true d) as Htwice. simpl in Htwice.
    simpl. rewrite Htwice. do 2 f_equal.
    by rewrite (assoc_L (∪)), (union_idemp_L {[best]}).
  - assert (Hfirst : first ∈ select_my_names
              (final_state (set_player_is_me (Some best) true d))).
    { simpl. rewrite Hmine'. by left. }
    apply marked_names in Hfirst as [->|Hin]; [done|].
    rewrite Hmine in Hin. by apply elem_of_nil in Hin.
Qed.

Lemma detect_my_name_stable_witness :
  let m := {| RecordManager.db :=
                store_of_games
                  [game_between "1.rep" (Some "Alice") (Some "Bob") None;
                   game_between "2.rep" (Some "Alice") (Some "Carol") None];
              RecordManager._my_names := ∅ |} in
  let m1 := final_state (RecordManager.detect_my_name m) in
  RecordManager.detect_my_name m1 = Returned (Some "Alice") m1.
Proof.
  intros m m1. apply (detect_my_name_stable m m1 "Alice"). vm_compute. reflexivity.
Defined.

(** ** What the watcher delivers *)

Lemma on_event_delivery e h :
  let h' := final_state (ReplayHandler.on_event e h) in
  h' = h ∨
  (ReplayHandler.is_directory e = false ∧
   lower (Path.suffix (ReplayHandler.src_path e)) = ".rep" ∧
   (∃ size, ReplayHandler.st_size e = Some size ∧ size ≠ 0%Z) ∧
   h' = {| ReplayHandler._processed :=
             {[Path.name (ReplayHandler.src_path e)]} ∪ ReplayHandler._processed h;
           ReplayHandler.calls := ReplayHandler.calls h ++ [ReplayHandler.src_path e] |}).
Proof.
  unfold ReplayHandler.on_event, ReplayHandler._handle, ReplayHandler.guarded_callback.
  destruct (ReplayHandler.is_directory e); simpl; [by left|].
  destruct (String.eqb_spec (lower (Path.suffix (ReplayHandler.src_path e))) ".rep")
    as [Hsuffix|]; simpl; [|by left].
  case_bool_decide as Hin; simpl; [by left|].
  destruct (ReplayHandler.st_size e) as [size|]; simpl; [|by left].
  destruct (Z.eqb_spec size 0); simpl; [by left|].
  right. split_and!; try done; [by exists size|].
  by destruct (ReplayHandler.callback_raises e).
Qed.

Lemma run_snoc events e h :
  ReplayHandler.run (events ++ [e]) h =
  final_state (ReplayHandler.on_event e (ReplayHandler.run events h)).
Proof. unfold ReplayHandler.run. by rewrite foldl_app. Qed.

(** X12. The handler delivers nothing but settled replay files, and marks
    nothing it has not delivered: every path passed to the callback comes
    from an event that is not for a directory, has the suffix ".rep" in
    some letter case, and whose file had a size other than zero after the
    settle delay; and every name in the processed-set is the name of a
    delivered path. An empty file, a file that cannot be inspected and a
    file of another type leave no trace. *)
Theorem watcher_delivers_only_settled_replays (events : list ReplayHandler.event) :
  let h := ReplayHandler.run events ReplayHandler.init in
  (∀ p, p ∈ ReplayHandler.calls h →
     ∃ e size, e ∈ events ∧ ReplayHandler.src_path e = p ∧
       ReplayHandler.is_directory e = false ∧
       lower (Path.suffix p) = ".rep" ∧
       ReplayHandler.st_size e = Some size ∧ size ≠ 0%Z) ∧
  (∀ n, n ∈ ReplayHandler._processed h →
     ∃ p, p ∈ ReplayHandler.calls h ∧ Path.name p = n).
Proof.
  induction events as [|e events IH] using rev_ind.
  { split; simpl; [by intros p ?%elem_of_nil|by intros n ?%elem_of_empty]. }
  cbv zeta in *. rewrite run_snoc.
  destruct IH as [IHcalls IHproc].
  destruct (on_event_delivery e (ReplayHandler.run events ReplayHandler.init))
    as [->|(Hdir & Hsuffix & (size & Hsize & Hnz) & ->)].
  - split; [|done]. intros p (e' & size & He' & ?)%IHcalls.
    exists e', size. split; [|done]. apply elem_of_app. by left.
  - split; simpl.
    + intros p [Hp| ->%list_elem_of_singleton]%elem_of_app.
      * destruct (IHcalls p Hp) as (e' & size' & He' & ?).
        exists e', size'. split; [|done]. apply elem_of_app. by left.
      * exists e, size. split_and!; try done. apply elem_of_app. right. by left.
    + intros n [->%elem_of_singleton|Hn]%elem_of_union.
      * eexists. split; [|done]. apply elem_of_app. right. by left.
      * destruct (IHproc n Hn) as (p & Hp & <-). exists p. split; [|done].
        apply elem_of_app. by left.
Qed.

(** A run with a directory, a text file, an empty replay, a replay that
    cannot be inspected and a settled replay delivers the last one only. *)
Example watcher_delivers_only_settled_replays_example :
  let good := replay_in "replays" "GAME.REP" in
  let h := ReplayHandler.run
    [{| ReplayHandler.src_path := replay_in "replays" "dir.rep";
        ReplayHandler.is_directory := true; ReplayHandler.st_size := Some 10%Z;
        ReplayHandler.callback_raises := false |};
     file_event (replay_in "replays" "notes.txt") 10 false;
     file_event (replay_in "replays" "empty.rep") 0 false;
     {| ReplayHandler.src_path := replay_in "replays" "gone.rep";
        ReplayHandler.is_directory := false; ReplayHandler.st_size := None;
        ReplayHandler.callback_raises := false |};
     file_event good 10 false] ReplayHandler.init in
  ReplayHandler.calls h = [good] ∧ ReplayHandler._processed h = {["GAME.REP"]}.
Proof. vm_compute. done. Qed.

(** ** Escaping for the toast's XML *)

Lemma append_cons c s t : String c s +:+ t = String c (s +:+ t).
Proof. reflexivity. Qed.

Lemma append_nil_l t : "" +:+ t = t.
Proof. reflexivity. Qed.

Lemma append_assoc (a b c : string) : (a +:+ b) +:+ c = a +:+ (b +:+ c).
Proof. induction a as [|x a IH]; [done|]. by rewrite !append_cons, IH. Qed.

Lemma replace_char_app old new a b :
  notifier.replace_char old new (a +:+ b) =
  notifier.replace_char old new a +:+ notifier.replace_char old new b.
Proof.
  induction a as [|c a IH]; [done|]. rewrite append_cons. simpl.
  destruct (Ascii.eqb c old); rewrite IH; [|done].
  by rewrite append_assoc.
Qed.

(** The five replacements in a row are one pass over the text: no entity
    contains a character that a later replacement looks for. *)
Lemma _escape_xml_each text : notifier._escape_xml text = escape_each text.
Proof.
  unfold notifier._escape_xml. induction text as [|c text IH]; [done|].
  cbn [notifier.replace_char escape_each]. unfold escape_char.
  destruct (Ascii.eqb_spec c "&") as [->|Hamp].
  { rewrite !replace_char_app, IH. reflexivity. }
  cbn [notifier.replace_char].
  destruct (Ascii.eqb_spec c "<") as [->|Hlt].
  { rewrite !replace_char_app, IH. reflexivity. }
  cbn [notifier.replace_char].
  destruct (Ascii.eqb_spec c ">") as [->|Hgt].
  { rewrite !replace_char_app, IH. reflexivity. }
  cbn [notifier.replace_char].
  destruct (Ascii.eqb_spec c notifier.dquote) as [->|Hdq].
  { rewrite !replace_char_app, IH. reflexivity. }
  cbn [notifier.replace_char].
  destruct (Ascii.eqb_spec c "'") as [->|Hap].
  { rewrite IH. reflexivity. }
  by rewrite IH.
Qed.

Lemma escape_char_cases c :
  (c = "&"%char ∧ escape_char c = "&amp;") ∨
  (c = "<"%char ∧ escape_char c = "&lt;") ∨
  (c = ">"%char ∧ escape_char c = "&gt;") ∨
  (c = notifier.dquote ∧ escape_char c = "&quot;") ∨
  (c = "'"%char ∧ escape_char c = "&apos;") ∨
  (c ≠ "&"%char ∧ markup_char c = false ∧ escape_char c = String c "").
Proof.
  unfold escape_char, markup_char.
  destruct (Ascii.eqb_spec c "&") as [->|?]; [by left|].
  destruct (Ascii.eqb_spec c "<") as [->|?]; [by right; left|].
  destruct (Ascii.eqb_spec c ">") as [->|?]; [by right; right; left|].
  destruct (Ascii.eqb_spec c notifier.dquote) as [->|?]; [by right; right; right; left|].
  destruct (Ascii.eqb_spec c "'") as [->|?]; [by right; right; right; right; left|].
  by right; right; right; right; right.
Qed.

Lemma escape_each_inj s t : escape_each s = escape_each t → s = t.
Proof.
  revert t. induction s as [|c s IH]; intros [|c' t]; simpl.
  - done.
  - destruct (escape_char_cases c') as [[_ ->]|[[_ ->]|[[_ ->]|[[_ ->]|[[_ ->]|(_ & _ & ->)]]]]];
      rewrite ?append_cons; done.
  - destruct (escape_char_cases c) as [[_ ->]|[[_ ->]|[[_ ->]|[[_ ->]|[[_ ->]|(_ & _ & ->)]]]]];
      rewrite ?append_cons; done.
  - destruct (escape_char_cases c) as [[-> ->]|[[-> ->]|[[-> ->]|[[-> ->]|[[-> ->]|(H1 & _ & ->)]]]]];
    destruct (escape_char_cases c') as [[-> ->]|[[-> ->]|[[-> ->]|[[-> ->]|[[-> ->]|(H2 & _ & ->)]]]]];
      rewrite ?append_cons, ?append_nil_l; intros Heq; try discriminate Heq;
      try (injection Heq as Heq; f_equal; by apply IH);
      try (injection Heq as -> Heq; by f_equal; apply IH);
      try (injection Heq as Hc _; congruence).
Qed.

Lemma escape_each_markup_free text c :
  List.In c (list_ascii_of_string (escape_each text)) → markup_char c = false.
Proof.
  induction text as [|c' text IH]; [done|]. simpl.
  destruct (escape_char_cases c') as [[_ ->]|[[_ ->]|[[_ ->]|[[_ ->]|[[_ ->]|(_ & Hm & ->)]]]]];
    rewrite ?append_cons, ?append_nil_l; simpl; intros Hin;
    repeat (destruct Hin as [<-|Hin]; [done|]); auto.
Qed.

(** X13. [_escape_xml] writes no markup and loses nothing: its result
    contains none of the characters <, >, double quote and apostrophe; two
    different texts have different results; and a text without those
    characters and without an ampersand is returned as it is. *)
Theorem _escape_xml_safe_and_faithful (text : string) :
  (∀ c, List.In c (list_ascii_of_string (notifier._escape_xml text)) →
        markup_char c = false) ∧
  (∀ text', notifier._escape_xml text = notifier._escape_xml text' → text = text') ∧
  ((∀ c, List.In c (list_ascii_of_string text) → c ≠ "&"%char ∧ markup_char c = false) →
   notifier._escape_xml text = text).
Proof.
  rewrite _escape_xml_each. split_and!.
  - intros c. apply escape_each_markup_free.
  - intros text'. rewrite _escape_xml_each. apply escape_each_inj.
  - induction text as [|c text IH]; [done|]. intros Hplain. simpl.
    destruct (Hplain c) as [Hamp Hm]; [by left|].
    destruct (escape_char_cases c) as [[-> _]|[[-> _]|[[-> _]|[[-> _]|[[-> _]|(_ & _ & ->)]]]]];
      try done.
    rewrite append_cons, append_nil_l. f_equal. apply IH.
    intros c' Hc'. apply Hplain. by right.
Qed.

Example _escape_xml_example :
  notifier._escape_xml "vs <Bob> & 'Al'" = "vs &lt;Bob&gt; &amp; &apos;Al&apos;".
Proof. reflexivity. Qed.

(** ** Formatting a record *)

Section FormatFacts.
Context (str_take : nat → string → string) (str_len : string → nat).

Lemma format_games_None (l : list (game_row * string)) :
  format_games str_take str_len l = None ↔ ∃ game : game_row * string, game ∈ l ∧ played_at game.1 = None.
Proof.
  induction l as [|game l IH]; simpl.
  { split; [done|]. by intros (? & ?%elem_of_nil & _). }
  unfold format_game at 1. destruct (played_at game.1) as [played|] eqn:Hplayed.
  - rewrite fmap_None, IH. split.
    + intros (g & Hg & Hnone). exists g. split; [by right|done].
    + intros (g & [->|Hg]%elem_of_cons & Hnone); [congruence|]. by exists g.
  - split; [|done]. intros _. exists game. split; [by left|done].
Qed.

Lemma format_record_TypeError_iff (record : vs_record) :
  format_record str_take str_len record = TypeError ↔
  vs_total record ≠ O ∧
  ∃ game : game_row * string, game ∈ take 5 (vs_games record) ∧ played_at game.1 = None.
Proof.
  unfold format_record. destruct (Nat.eqb_spec (vs_total record) 0) as [Hz|Hnz].
  { split; [done|]. by intros [? _]. }
  rewrite <- format_games_None.
  destruct (format_games _ _ _); split; try done. by intros [_ ?].
Qed.

(** X14. [format_record] fails on an undated game: it raises [TypeError]
    exactly when the record's total is not zero and one of its first five
    games has no played-at; in every other case it returns a text. *)
Theorem format_record_raises_on_undated_game (record : vs_record) :
  (format_record str_take str_len record = TypeError ↔
   vs_total record ≠ O ∧
   ∃ game : game_row * string, game ∈ take 5 (vs_games record) ∧ played_at game.1 = None) ∧
  (vs_total record = O →
   format_record str_take str_len record =
     Text (fstr (vs_opponent record) +:+ ": 전적 없음")).
Proof.
  split; [apply format_record_TypeError_iff|].
  intros Hz. unfold format_record. by rewrite Hz.
Qed.

Lemma take_keeps_failure {A} (P : A → bool) (n : nat) (l : list A) :
  (length (List.filter P l) < n)%nat → (∃ x, x ∈ l ∧ P x = false) →
  ∃ x, x ∈ take n l ∧ P x = false.
Proof.
  revert n. induction l as [|x l IH]; intros n Hlen (y & Hy & HPy).
  { by apply elem_of_nil in Hy. }
  destruct n as [|n]; [lia|]. simpl in *.
  destruct (P x) eqn:HPx.
  - apply elem_of_cons in Hy as [->|Hy]; [congruence|].
    destruct (IH n) as (z & Hz & HPz); [simpl in Hlen; lia|by exists y|].
    exists z. split; [by right|done].
  - exists x. split; [by left|done].
Qed.

Lemma filter_filter_andb {A} (P Q : A → bool) (l : list A) :
  List.filter P (List.filter Q l) = List.filter (λ x, Q x && P x) l.
Proof.
  induction l as [|x l IH]; [done|]. simpl.
  destruct (Q x); simpl; [destruct (P x)|]; by rewrite IH.
Qed.

Lemma filter_fst_length {A B} (P : A → bool) (l : list (A * B)) :
  length (List.filter (λ x, P x.1) l) = length (List.filter P l.*1).
Proof.
  induction l as [|[a b] l IH]; [done|]. simpl. destruct (P a); simpl; by rewrite IH.
Qed.

(** X15. An undated game makes the record of its opponent unprintable:
    when [get_record_vs] has returned a record with a total other than
    zero, the store holds a game against that opponent without played-at,
    and fewer than five games against the opponent have one, then
    [format_record] raises [TypeError] on the record. *)
Theorem undated_game_breaks_format_record
    (opponent_name : sql_text) (d : database) (record : vs_record) :
  get_record_vs opponent_name d = Returned record d →
  vs_total record ≠ O →
  (∃ g : game_row, g ∈ games d ∧ involves (vs_opponent record) g = true ∧
                   played_at g = None) →
  (length (List.filter (λ g : game_row, involves (vs_opponent record) g &&
                                        bool_decide (is_Some (played_at g)))
                       (games d)) < 5)%nat →
  format_record str_take str_len record = TypeError.
Proof.
  intros Hrun Htotal (g & Hg & Hinv & Hnone) Hfew.
  destruct (resolve_player_name_returns opponent_name d) as [resolved Hres].
  destruct (get_record_vs_run opponent_name d resolved Hres) as (r & Hr & Hopp & Hrows).
  rewrite Hrun in Hr. injection Hr as <-. subst resolved.
  apply format_record_TypeError_iff. split; [done|].
  destruct (take_keeps_failure
              (λ game : game_row * string, bool_decide (is_Some (played_at game.1)))
              5 (vs_games record)) as (game & Hgame & Hundated).
  - pose proof (filter_fst_length (B:=string)
                  (λ g : game_row, bool_decide (is_Some (played_at g)))
                  (vs_games record)) as Hlen.
    cbv beta in Hlen. rewrite Hlen, Hrows.
    rewrite (filter_length_Permutation _ _ _
               (sort_by_Permutation played_at_desc _)).
    by rewrite filter_filter_andb.
  - assert (Hin : g ∈ (vs_games record).*1).
    { rewrite Hrows, sort_by_elem_of. apply list_elem_of_In, List.filter_In.
      by rewrite <- list_elem_of_In. }
    apply list_elem_of_fmap in Hin as (game & -> & Hin). exists game. split; [done|].
    apply bool_decide_eq_false. rewrite Hnone. by intros [? ?].
  - exists game. split; [done|].
    apply bool_decide_eq_false in Hundated. destruct (played_at game.1); [|done].
    destruct Hundated. by eexists.
Qed.
End FormatFacts.

Lemma undated_game_breaks_format_record_witness :
  let record := default
    {| vs_opponent := None; vs_wins := 0; vs_losses := 0; vs_total := 0; vs_games := [] |}
    (returned (get_record_vs (Some "Bob") alice_store)) in
  vs_total record = 5%nat ∧
  format_record ascii_take String.length record = TypeError.
Proof.
  intros record. split; [vm_compute; reflexivity|].
  apply (undated_game_breaks_format_record ascii_take String.length (Some "Bob") alice_store).
  - vm_compute. reflexivity.
  - vm_compute. discriminate.
  - eexists {| g_id := 5; g_data := game_between "5.rep" (Some "Bob") (Some "Alice") None |}.
    split_and!; [|reflexivity..]. vm_compute. do 4 apply list_elem_of_further.
    apply list_elem_of_here.
  - vm_compute. lia.
Defined.

(** With every game dated the record is printed, five games at most. *)
Example format_record_example :
  let d := final_state
    ((get_or_create_player (Some "Alice");; set_player_is_me (Some "Alice") true)
       (store_of_games
          [game_between "1.rep" (Some "Alice") (Some "Bob") (Some "2026-01-01 10:00:00");
           game_between "2.rep" (Some "Bob") (Some "Alice") (Some "2026-01-02 10:00:00")])) in
  (format_record ascii_take String.length <$> returned (get_record_vs (Some "Bob") d),
   format_record_short ascii_take <$> returned (get_record_vs (Some "Bob") d))
  = (Some (Text ("vs Bob: 1승 1패 (총 2전)" +:+ String "010"
                 ("  2026-01-02 | loss | ? | None" +:+ String "010"
                  "  2026-01-01 | win  | ? | None"))),
     Some "vs Bob: 1승 1패 (최근: 2026-01-02)").
Proof. vm_compute. reflexivity. Qed.

(** ** The configured names *)

Section ConfigFacts.
Context {V : Type}.

Lemma add_my_name_lists (name : string) (disk_ok : bool) (c : config.t (V:=V)) :
  name ∈ default []
    (config.my_names (config.dict (final_state (config.add_my_name name disk_ok c)))).
Proof.
  destruct c as [[mine others] writes].
  unfold config.add_my_name, mbind, M_bind, gets. simpl.
  destruct (decide (name ∈ default [] mine)) as [Hin|Hnew].
  - by rewrite bool_decide_eq_true_2.
  - rewrite bool_decide_eq_false_2 by done. unfold config.save.
    destruct disk_ok; simpl; apply elem_of_app; right; by left.
Qed.

(** X16. [add_my_name] keeps the list of names free of repetitions and
    writes only on a change. For a name already listed it returns the
    dictionary as it is and writes nothing. For a new name it appends the
    name to the list, leaves the other keys alone, and then writes the new
    dictionary, or raises when the file cannot be written, the name being
    listed in memory all the same. A second call for the same name changes
    and writes nothing. *)
Theorem add_my_name_appends_once (name : string) (disk_ok : bool) (s : config.t (V:=V)) :
  let names := default [] (config.my_names (config.dict s)) in
  let o := config.add_my_name name disk_ok s in
  let s' := final_state o in
  (name ∈ names → o = Returned (config.dict s) s) ∧
  (name ∉ names →
     config.dict s' = {| config.my_names := Some (names ++ [name]);
                         config.other_keys := config.other_keys (config.dict s) |} ∧
     (if disk_ok
      then o = Returned (config.dict s') s' ∧
           config.writes s' = config.writes s ++ [config.dict s']
      else o = Raised (OSError "open") s' ∧ config.writes s' = config.writes s)) ∧
  (NoDup names → NoDup (default [] (config.my_names (config.dict s')))) ∧
  (∀ disk_ok', config.add_my_name name disk_ok' s' = Returned (config.dict s') s').
Proof.
  intros names o s'. subst o s'. destruct s as [[mine others] writes]. simpl in names.
  unfold config.add_my_name, mbind, M_bind, gets. simpl. fold names.
  destruct (decide (name ∈ names)) as [Hin|Hnew].
  - rewrite bool_decide_eq_true_2 by done. simpl. split_and!; try done.
    intros disk_ok'. fold names. by rewrite bool_decide_eq_true_2.
  - rewrite bool_decide_eq_false_2 by done. unfold config.save.
    destruct disk_ok; simpl.
    + split_and!; try done.
      * intros Hnd. apply NoDup_app. split_and!; [done| |apply NoDup_singleton].
        by intros x Hx ->%list_elem_of_singleton.
      * intros disk_ok'. rewrite bool_decide_eq_true_2; [done|].
        apply elem_of_app. right. by left.
    + split_and!; try done.
      * intros Hnd. apply NoDup_app. split_and!; [done| |apply NoDup_singleton].
        by intros x Hx ->%list_elem_of_singleton.
      * intros disk_ok'. rewrite bool_decide_eq_true_2; [done|].
        apply elem_of_app. right. by left.
Qed.

Lemma set_player_is_me_marks n d :
  n ∈ (p_name <$> players d) →
  n ∈ select_my_names (final_state (set_player_is_me (Some n) true d)).
Proof.
  unfold select_my_names. simpl. induction (players d) as [|p l IH]; simpl.
  { by intros ?%elem_of_nil. }
  intros Hn. destruct (player_named (Some n) p) eqn:Hp; simpl.
  - apply player_named_spec in Hp as <-. by left.
  - apply elem_of_cons in Hn as [->|Hn].
    { by rewrite (proj2 (player_named_spec _ _)) in Hp. }
    destruct (p_is_me p); simpl; [right|]; by apply IH.
Qed.

Lemma set_player_is_me_unknown n b d :
  n ∉ (p_name <$> players d) → final_state (set_player_is_me (Some n) b d) = d.
Proof.
  intros Hn. destruct d as [ps als gs gps cms]. simpl in *. unfold with_players. simpl.
  f_equal. apply map_unchanged. intros p Hp.
  destruct (player_named (Some n) p) eqn:Hpn; [|done].
  apply player_named_spec in Hpn. destruct Hn. rewrite <- Hpn.
  by apply list_elem_of_fmap_2.
Qed.

(** X17. [cmd_set_name] marks the player of that very name, and no other:
    for a name that is a player name, or is unknown to both tables, the
    name is local in the store afterwards. For a name that is only an
    alt-name the store is left as it is; the canonical player is not
    marked. Either way the name is listed in the configuration in memory. *)
Theorem cmd_set_name_marks_exact_name (name : string) (disk_ok : bool) (s : main.t (V:=V)) :
  let d := RecordManager.db (main.manager s) in
  let s' := final_state (main.cmd_set_name name disk_ok s) in
  let d' := RecordManager.db (main.manager s') in
  (name ∈ (p_name <$> players d) ∨ name ∉ (a_alt_name <$> aliases d) →
   name ∈ select_my_names d') ∧
  (name ∉ (p_name <$> players d) → name ∈ (a_alt_name <$> aliases d) → d' = d) ∧
  name ∈ default [] (config.my_names (config.dict (main.cfg s'))).
Proof.
  intros d s' d'. subst d s' d'. destruct s as [[d mine] c]. simpl.
  unfold main.cmd_set_name, mbind, M_bind, main.on_manager. simpl.
  rewrite on_db_run.
  assert (∃ i d1, get_or_create_player (Some name) d = Returned i d1) as (i & d1 & Hrun).
  { unfold get_or_create_player, _connect.
    destruct (List.find (player_named (Some name)) (players d)); [by eexists _, _|].
    destruct (List.find (alias_named (Some name)) (aliases d)); by eexists _, _. }
  rewrite Hrun. simpl.
  pose proof (add_my_name_lists name disk_ok c) as Hlisted.
  assert (Hfinal : ∀ m : RecordManager.t,
    final_state (main.on_config (config.add_my_name name disk_ok) ≫= (λ _, mret tt)
                   $ {| main.manager := m; main.cfg := c |}) =
    {| main.manager := m;
       main.cfg := final_state (config.add_my_name name disk_ok c) |}).
  { intros m. unfold mbind, M_bind, main.on_config. simpl.
    by destruct (config.add_my_name name disk_ok c). }
  unfold mbind, M_bind in Hfinal. rewrite Hfinal. simpl. split_and!; [| |done].
  - intros Hname. apply set_player_is_me_marks.
    revert Hrun. unfold get_or_create_player, _connect.
    destruct (List.find (player_named (Some name)) (players d)) as [p|] eqn:Hp.
    { intros [= _ <-]. apply find_Some_elem_of in Hp as [Hp Hn].
      apply player_named_spec in Hn as <-. by apply list_elem_of_fmap_2. }
    destruct (List.find (alias_named (Some name)) (aliases d)) as [a|] eqn:Ha.
    { apply find_Some_elem_of in Ha as [Ha Hn]. apply alias_named_spec in Hn.
      apply find_player_None in Hp. destruct Hname as [?|Hname]; [done|].
      destruct Hname. rewrite <- Hn. by apply list_elem_of_fmap_2. }
    intros [= _ <-]. simpl. rewrite fmap_app. apply elem_of_app. right. by left.
  - intros Hnp (a & Hn & Ha)%list_elem_of_fmap.
    assert (d1 = d) as ->.
    { revert Hrun. unfold get_or_create_player, _connect.
      destruct (List.find (player_named (Some name)) (players d)); [by intros [= _ <-]|].
      destruct (List.find (alias_named (Some name)) (aliases d)) eqn:Hfa;
        [by intros [= _ <-]|].
      apply find_alias_None in Hfa. destruct Hfa. rewrite Hn.
      by apply list_elem_of_fmap_2. }
    by apply set_player_is_me_unknown.
Qed.
End ConfigFacts.

(** Setting the name "Al", an alias of "Alice", marks nobody. *)
Example cmd_set_name_alias_example :
  let d := final_state (add_alias (Some "Alice") (Some "Al") empty_db) in
  let s : main.t (V:=string) :=
    {| main.manager := {| RecordManager.db := d; RecordManager._my_names := ∅ |};
       main.cfg := {| config.dict := {| config.my_names := Some [];
                                         config.other_keys := ∅ |};
                      config.writes := [] |} |} in
  let s' := final_state (main.cmd_set_name "Al" true s) in
  select_my_names (RecordManager.db (main.manager s')) = [] ∧
  config.my_names (config.dict (main.cfg s')) = Some ["Al"].
Proof. vm_compute. done. Qed.

(** ** What a stored replay leaves in the participant and chat tables *)

Lemma for_each_outcome {S A} (body : A → M S unit) (P : list A → S → outcome S unit → Prop) :
  (∀ s, P [] s (Returned tt s)) →
  (∀ x l s u s1, body x s = Returned u s1 → ∀ o, P l s1 o → P (x :: l) s o) →
  (∀ x l s e s1, body x s = Raised e s1 → P (x :: l) s (Raised e s1)) →
  ∀ l s, P l s (for_each l body s).
Proof.
  intros Hnil Hret Hraise. induction l as [|x l IH]; intros s; [apply Hnil|].
  simpl. unfold mbind, M_bind. destruct (body x s) as [u s1|e s1] eqn:Hbody.
  - eapply Hret; [done|]. apply IH.
  - by eapply Hraise.
Qed.

Lemma find_app_Some {A} (test : A → bool) (l l' : list A) (x : A) :
  List.find test l = Some x → List.find test (l ++ l') = Some x.
Proof.
  induction l as [|y l IH]; [done|]. simpl. destruct (test y); [done|]. apply IH.
Qed.

Lemma grows_refl d : grows d d.
Proof. split; [done|]. exists []. by rewrite app_nil_r. Qed.

Lemma grows_trans d1 d2 d3 : grows d1 d2 → grows d2 d3 → grows d1 d3.
Proof.
  intros [Ha (e1 & Hp & He1)] [Ha' (e2 & Hp' & He2)]. split; [congruence|].
  exists (e1 ++ e2). split; [by rewrite Hp', Hp, app_assoc|].
  apply Forall_app. split; [done|]. by rewrite <- Ha.
Qed.

Lemma grows_same_names d1 d2 d1' d2' :
  players d1' = players d1 → aliases d1' = aliases d1 →
  players d2' = players d2 → aliases d2' = aliases d2 →
  grows d1 d2 → grows d1' d2'.
Proof. unfold grows. by intros -> -> -> ->. Qed.

Lemma known_as_grows n i d d' : known_as n i d → grows d d' → known_as n i d'.
Proof.
  unfold known_as, get_or_create_player, _connect. intros Hknown [Ha (extra & Hp & Hextra)].
  rewrite Hp, Ha.
  destruct (List.find (player_named (Some n)) (players d)) as [p|] eqn:Hfp.
  { rewrite (find_app_Some _ _ extra _ Hfp). by injection Hknown as ->. }
  rewrite find_app_None by done.
  destruct (List.find (alias_named (Some n)) (aliases d)) as [a|] eqn:Hfa.
  2:{ injection Hknown as _ Hd. apply (f_equal (λ d, length (players d))) in Hd.
      simpl in Hd. rewrite length_app in Hd. simpl in Hd. lia. }
  injection Hknown as ->.
  apply find_Some_elem_of in Hfa as [Hain Hn]. apply alias_named_spec in Hn.
  assert (List.find (player_named (Some n)) extra = None) as ->; [|done].
  clear Hp. induction Hextra as [|p extra Hp' _ IH]; [done|]. simpl.
  destruct (player_named (Some n) p) eqn:Hpn; [|done].
  apply player_named_spec in Hpn.
  destruct Hp'. rewrite Hpn, <- Hn. by apply list_elem_of_fmap_2.
Qed.

(** What a call of [get_or_create_player] on a name leaves behind. *)
Lemma get_or_create_player_known n d :
  ∃ i d1, get_or_create_player (Some n) d = Returned i d1 ∧
    known_as n i d1 ∧ grows d d1 ∧
    games d1 = games d ∧ game_players d1 = game_players d ∧
    chat_messages d1 = chat_messages d.
Proof.
  unfold known_as, get_or_create_player, _connect.
  destruct (List.find (player_named (Some n)) (players d)) as [p|] eqn:Hfp.
  { exists (p_id p), d. rewrite Hfp. split_and!; try done. apply grows_refl. }
  destruct (List.find (alias_named (Some n)) (aliases d)) as [a|] eqn:Hfa.
  { exists (a_player_id a), d. rewrite Hfp, Hfa. split_and!; try done. apply grows_refl. }
  eexists _, _. split; [reflexivity|]. simpl. split_and!; try done.
  - rewrite find_app_None by done. simpl.
    unfold player_named at 1. simpl. by rewrite String.eqb_refl.
  - split; [done|]. eexists [_]. split; [done|]. apply Forall_singleton. simpl.
    by apply find_alias_None.
Qed.

Lemma _save_players_rows game_id parser m :
  match RecordManager._save_players game_id parser m with
  | Returned _ m' =>
    ∃ rows,
      game_players (RecordManager.db m') = game_players (RecordManager.db m) ++ rows ∧
      chat_messages (RecordManager.db m') = chat_messages (RecordManager.db m) ∧
      grows (RecordManager.db m) (RecordManager.db m') ∧
      Forall2 (participant_row game_id parser (RecordManager.db m'))
              (SCReplayParser.players parser) rows
  | Raised _ _ => True
  end.
Proof.
  unfold RecordManager._save_players.
  apply (for_each_outcome _ (λ l m o,
    match o with
    | Returned _ m' =>
      ∃ rows,
        game_players (RecordManager.db m') = game_players (RecordManager.db m) ++ rows ∧
        chat_messages (RecordManager.db m') = chat_messages (RecordManager.db m) ∧
        grows (RecordManager.db m) (RecordManager.db m') ∧
        Forall2 (participant_row game_id parser (RecordManager.db m')) l rows
    | Raised _ _ => True
    end)); [| |done].
  { intros s. exists []. rewrite app_nil_r. split_and!; try done. apply grows_refl. }
  intros p l [d mine] u s1. unfold mbind, M_bind. rewrite on_db_run.
  destruct (SCReplayParser.name p) as [n|] eqn:Hname.
  2:{ unfold get_or_create_player, _connect.
      destruct (List.find _ (players d)) eqn:Hfp.
      { apply find_Some_elem_of in Hfp as [_ Hfp]. by destruct p0. }
      destruct (List.find _ (aliases d)) eqn:Hfa; [|done].
      apply find_Some_elem_of in Hfa as [_ Hfa]. by destruct a. }
  destruct (get_or_create_player_known n d)
    as (i & d1 & -> & Hknown & Hgrows & Hgames & Hgp & Hcm).
  rewrite on_db_run. unfold insert_game_player, _connect.
  destruct (_ && _); [|done]. intros [= _ <-] [u' m'|]; [|done]. simpl.
  intros (rows & Hrows & Hchat & Hgrows' & Hall).
  eexists (_ :: rows). split_and!.
  - rewrite Hrows, Hgp, <- app_assoc. reflexivity.
  - by rewrite Hchat.
  - eapply grows_trans; [done|]. by eapply grows_same_names; [..|exact Hgrows'].
  - constructor; [|done]. split_and!; simpl; try done.
    + rewrite Hname. apply bool_decide_eq_true.
    + by destruct (SCReplayParser.player_stats parser !! SCReplayParser.id p).
    + exists n. split; [done|]. eapply known_as_grows; [done|].
      by eapply grows_same_names; [..|exact Hgrows'].
Qed.

Lemma _save_chat_rows game_id parser m :
  match RecordManager._save_chat game_id parser m with
  | Returned _ m' =>
    ∃ rows,
      chat_messages (RecordManager.db m') = chat_messages (RecordManager.db m) ++ rows ∧
      game_players (RecordManager.db m') = game_players (RecordManager.db m) ∧
      grows (RecordManager.db m) (RecordManager.db m') ∧
      Forall2 (chat_row game_id (RecordManager.db m'))
              (SCReplayParser.chat_messages parser) rows
  | Raised _ _ => True
  end.
Proof.
  unfold RecordManager._save_chat.
  apply (for_each_outcome _ (λ l m o,
    match o with
    | Returned _ m' =>
      ∃ rows,
        chat_messages (RecordManager.db m') = chat_messages (RecordManager.db m) ++ rows ∧
        game_players (RecordManager.db m') = game_players (RecordManager.db m) ∧
        grows (RecordManager.db m) (RecordManager.db m') ∧
        Forall2 (chat_row game_id (RecordManager.db m')) l rows
    | Raised _ _ => True
    end)); [| |done].
  { intros s. exists []. rewrite app_nil_r. split_and!; try done. apply grows_refl. }
  intros msg l [d mine] u s1. unfold mbind, M_bind. rewrite on_db_run.
  destruct (SCReplayParser.player_name msg) as [n|] eqn:Hname.
  2:{ unfold get_or_create_player, _connect.
      destruct (List.find _ (players d)) eqn:Hfp.
      { apply find_Some_elem_of in Hfp as [_ Hfp]. by destruct p. }
      destruct (List.find _ (aliases d)) eqn:Hfa; [|done].
      apply find_Some_elem_of in Hfa as [_ Hfa]. by destruct a. }
  destruct (get_or_create_player_known n d)
    as (i & d1 & -> & Hknown & Hgrows & Hgames & Hgp & Hcm).
  rewrite on_db_run. unfold insert_chat_message, _connect.
  destruct (_ && _); [|done]. intros [= _ <-] [u' m'|]; [|done]. simpl.
  intros (rows & Hrows & Hplayers & Hgrows' & Hall).
  eexists (_ :: rows). split_and!.
  - rewrite Hrows, Hcm, <- app_assoc. reflexivity.
  - by rewrite Hplayers.
  - eapply grows_trans; [done|]. by eapply grows_same_names; [..|exact Hgrows'].
  - constructor; [|done]. split_and!; simpl; try done.
    exists n. split; [done|]. eapply known_as_grows; [done|].
    by eapply grows_same_names; [..|exact Hgrows'].
Qed.

Lemma participant_row_grows game_id parser d d' p row :
  grows d d' → participant_row game_id parser d p row → participant_row game_id parser d' p row.
Proof.
  intros Hg (?&?&?&?& n & ? & ?). split_and!; try done. exists n. split; [done|].
  by eapply known_as_grows.
Qed.

(** X18. What a stored replay leaves in the tables: when [process_replay]
    returns the game data, the decoder had decoded the file, and the call
    appended to [game_players] one row per decoded participant, in their
    order, and to [chat_messages] one row per decoded chat entry, in their
    order. Each row carries the id of the new game and the decoded fields
    (the winner flag set exactly for the participant named as the winner,
    the apm 0 where the statistics have none, the time ["" ] and the frame 0
    where the entry has none), and its player is the one the store answers
    for the name of the participant or speaker. No alias is written. *)
Theorem process_replay_writes_rows decimal_digit decoder replay_path m gd m1 :
  RecordManager.process_replay decimal_digit decoder replay_path m = Returned (Some gd) m1 →
  let game_id := next_id (g_id <$> games (RecordManager.db m)) in
  ∃ parser rows chats,
    decoder replay_path = Some parser ∧
    game_players (RecordManager.db m1) = game_players (RecordManager.db m) ++ rows ∧
    Forall2 (participant_row game_id parser (RecordManager.db m1))
            (SCReplayParser.players parser) rows ∧
    chat_messages (RecordManager.db m1) = chat_messages (RecordManager.db m) ++ chats ∧
    Forall2 (chat_row game_id (RecordManager.db m1))
            (SCReplayParser.chat_messages parser) chats ∧
    aliases (RecordManager.db m1) = aliases (RecordManager.db m).
Proof.
  intros Hrun game_id. subst game_id. revert Hrun. destruct m as [d mine]. simpl.
  unfold RecordManager.process_replay, mbind at 1, M_bind at 1.
  rewrite on_db_run. unfold game_exists, _connect.
  destruct (has_game (Path.name replay_path) d) eqn:Hhas; [done|].
  destruct (decoder replay_path) as [parser|]; [|done].
  unfold mbind at 1, M_bind at 1.
  destruct (_build_game_data_returns decimal_digit parser (Path.name replay_path)
              {| RecordManager.db := d; RecordManager._my_names := mine |})
    as (gd' & -> & Hfile & _).
  unfold mbind at 1, M_bind at 1.
  rewrite on_db_run. unfold insert_game, _connect. rewrite Hfile, Hhas.
  set (m0 := {| RecordManager.db := with_games d _; RecordManager._my_names := mine |}).
  pose proof (_save_players_rows (next_id (g_id <$> games d)) parser m0) as Hplayers.
  unfold mbind at 1, M_bind at 1.
  destruct (RecordManager._save_players _ parser m0) as [u m2|e m2]; [|done].
  destruct Hplayers as (rows & Hrows & Hcm & Hgrows & Hall).
  pose proof (_save_chat_rows (next_id (g_id <$> games d)) parser m2) as Hchat.
  unfold mbind at 1, M_bind at 1.
  destruct (RecordManager._save_chat _ parser m2) as [u' m3|e m3]; [|done].
  destruct Hchat as (chats & Hchats & Hgp & Hgrows' & Hall').
  intros [= _ <-]. exists parser, rows, chats. split_and!; try done.
  - by rewrite Hgp, Hrows.
  - eapply Forall2_impl; [exact Hall|]. intros p row. by apply participant_row_grows.
  - by rewrite Hchats, Hcm.
  - destruct Hgrows as [Ha _], Hgrows' as [Ha' _]. by rewrite Ha', Ha.
Qed.

Lemma process_replay_writes_rows_witness :
  let decoder := λ _ : Path.t, Some (decoded_game (Some "Alice") (Some "Bob") ∅) in
  let m1 := final_state (RecordManager.process_replay ascii_decimal_digit decoder
                           (replay_in "replays" "g.rep") new_manager) in
  ∃ parser rows chats,
    decoder (replay_in "replays" "g.rep") = Some parser ∧
    game_players (RecordManager.db m1) = game_players (RecordManager.db new_manager) ++ rows ∧
    Forall2 (participant_row (next_id (g_id <$> games (RecordManager.db new_manager)))
                             parser (RecordManager.db m1))
            (SCReplayParser.players parser) rows ∧
    chat_messages (RecordManager.db m1) = chat_messages (RecordManager.db new_manager) ++ chats ∧
    Forall2 (chat_row (next_id (g_id <$> games (RecordManager.db new_manager)))
                      (RecordManager.db m1))
            (SCReplayParser.chat_messages parser) chats ∧
    aliases (RecordManager.db m1) = aliases (RecordManager.db new_manager).
Proof.
  intros decoder m1.
  eapply (process_replay_writes_rows ascii_decimal_digit decoder
            (replay_in "replays" "g.rep") new_manager).
  vm_compute. reflexivity.
Defined.

(** ** When storing a replay fails *)

Lemma schema_ok_insert_game gd d :
  schema_ok d → has_game (replay_file gd) d = false →
  schema_ok (with_games d (games d ++ [{| g_id := next_id (g_id <$> games d);
                                          g_data := gd |}])).
Proof.
  intros [H1 H2 H3 H4 H5] Hhas. split; simpl; try done.
  rewrite !fmap_app. apply NoDup_app. split; [done|]. split; [|apply NoDup_singleton].
  intros n Hn ->%list_elem_of_singleton. by apply has_game_false_not_elem in Hhas.
Qed.

Lemma get_or_create_player_None d :
  get_or_create_player None d
  = Raised (IntegrityError "NOT NULL constraint failed: players.name") d.
Proof.
  unfold get_or_create_player, _connect.
  destruct (List.find _ (players d)) eqn:Hfp.
  { apply find_Some_elem_of in Hfp as [_ Hfp]. by destruct p. }
  destruct (List.find _ (aliases d)) eqn:Hfa; [|done].
  apply find_Some_elem_of in Hfa as [_ Hfa]. by destruct a.
Qed.

Lemma _save_players_outcome game_id parser m :
  schema_ok (RecordManager.db m) → game_id ∈ (g_id <$> games (RecordManager.db m)) →
  match RecordManager._save_players game_id parser m with
  | Returned _ m' =>
    Forall (λ p, is_Some (SCReplayParser.name p)) (SCReplayParser.players parser) ∧
    schema_ok (RecordManager.db m') ∧
    games (RecordManager.db m') = games (RecordManager.db m)
  | Raised e _ =>
    e = IntegrityError "NOT NULL constraint failed: players.name" ∧
    ¬ Forall (λ p, is_Some (SCReplayParser.name p)) (SCReplayParser.players parser)
  end.
Proof.
  unfold RecordManager._save_players.
  apply (for_each_outcome _ (λ l m o,
    schema_ok (RecordManager.db m) → game_id ∈ (g_id <$> games (RecordManager.db m)) →
    match o with
    | Returned _ m' =>
      Forall (λ p, is_Some (SCReplayParser.name p)) l ∧
      schema_ok (RecordManager.db m') ∧
      games (RecordManager.db m') = games (RecordManager.db m)
    | Raised e _ =>
      e = IntegrityError "NOT NULL constraint failed: players.name" ∧
      ¬ Forall (λ p, is_Some (SCReplayParser.name p)) l
    end)).
  - done.
  - intros p l [d mine] u s1 Hbody o Ho Hok Hgid. simpl in Hok, Hgid.
    revert Hbody. unfold mbind, M_bind. rewrite on_db_run.
    destruct (SCReplayParser.name p) as [n|] eqn:Hname;
      [|by rewrite get_or_create_player_None].
    destruct (get_or_create_player_spec d n Hok)
      as (p' & d' & -> & Hok' & Hp' & _ & Hgames & _).
    rewrite on_db_run. unfold insert_game_player, _connect.
    destruct (_ && _); [|done]. intros [= _ <-]. simpl in Ho.
    specialize (Ho ltac:(by destruct Hok') ltac:(by rewrite Hgames)).
    destruct o as [u' m'|e m'].
    + destruct Ho as (Hl & Hok'' & Hg). split_and!; [|done|by rewrite Hg].
      constructor; [by rewrite Hname|done].
    + destruct Ho as [-> Hl]. split; [done|]. by intros Hall%Forall_cons_1%proj2.
  - intros p l [d mine] e s1 Hbody Hok Hgid. simpl in Hok, Hgid.
    revert Hbody. unfold mbind, M_bind. rewrite on_db_run.
    destruct (SCReplayParser.name p) as [n|] eqn:Hname.
    2:{ rewrite get_or_create_player_None. intros [= <- _]. split; [done|].
        intros [Hsome _]%Forall_cons_1. rewrite Hname in Hsome. by destruct Hsome. }
    destruct (get_or_create_player_spec d n Hok)
      as (p' & d' & -> & Hok' & Hp' & _ & Hgames & _).
    rewrite on_db_run. unfold insert_game_player, _connect.
    assert (bool_decide (game_id ∈ (g_id <$> games d'))
            && bool_decide (p_id p' ∈ (p_id <$> players d')) = true) as ->; [|done].
    apply andb_true_iff. split; apply bool_decide_eq_true;
      [by rewrite Hgames|by apply list_elem_of_fmap_2].
Qed.

Lemma _save_chat_outcome game_id parser m :
  schema_ok (RecordManager.db m) → game_id ∈ (g_id <$> games (RecordManager.db m)) →
  match RecordManager._save_chat game_id parser m with
  | Returned _ m' =>
    Forall (λ msg, is_Some (SCReplayParser.player_name msg))
           (SCReplayParser.chat_messages parser)
  | Raised e _ =>
    e = IntegrityError "NOT NULL constraint failed: players.name" ∧
    ¬ Forall (λ msg, is_Some (SCReplayParser.player_name msg))
             (SCReplayParser.chat_messages parser)
  end.
Proof.
  unfold RecordManager._save_chat.
  apply (for_each_outcome _ (λ l m o,
    schema_ok (RecordManager.db m) → game_id ∈ (g_id <$> games (RecordManager.db m)) →
    match o with
    | Returned _ m' => Forall (λ msg, is_Some (SCReplayParser.player_name msg)) l
    | Raised e _ =>
      e = IntegrityError "NOT NULL constraint failed: players.name" ∧
      ¬ Forall (λ msg, is_Some (SCReplayParser.player_name msg)) l
    end)).
  - done.
  - intros msg l [d mine] u s1 Hbody o Ho Hok Hgid. simpl in Hok, Hgid.
    revert Hbody. unfold mbind, M_bind. rewrite on_db_run.
    destruct (SCReplayParser.player_name msg) as [n|] eqn:Hname;
      [|by rewrite get_or_create_player_None].
    destruct (get_or_create_player_spec d n Hok)
      as (p' & d' & -> & Hok' & Hp' & _ & Hgames & _).
    rewrite on_db_run. unfold insert_chat_message, _connect.
    destruct (_ && _); [|done]. intros [= _ <-]. simpl in Ho.
    specialize (Ho ltac:(by destruct Hok') ltac:(by rewrite Hgames)).
    destruct o as [u' m'|e m'].
    + constructor; [by rewrite Hname|done].
    + destruct Ho as [-> Hl]. split; [done|]. by intros Hall%Forall_cons_1%proj2.
  - intros msg l [d mine] e s1 Hbody Hok Hgid. simpl in Hok, Hgid.
    revert Hbody. unfold mbind, M_bind. rewrite on_db_run.
    destruct (SCReplayParser.player_name msg) as [n|] eqn:Hname.
    2:{ rewrite get_or_create_player_None. intros [= <- _]. split; [done|].
        intros [Hsome _]%Forall_cons_1. rewrite Hname in Hsome. by destruct Hsome. }
    destruct (get_or_create_player_spec d n Hok)
      as (p' & d' & -> & Hok' & Hp' & _ & Hgames & _).
    rewrite on_db_run. unfold insert_chat_message, _connect.
    assert (bool_decide (game_id ∈ (g_id <$> games d'))
            && bool_decide (p_id p' ∈ (p_id <$> players d')) = true) as ->; [|done].
    apply andb_true_iff. split; apply bool_decide_eq_true;
      [by rewrite Hgames|by apply list_elem_of_fmap_2].
Qed.

Lemma process_replay_new_outcome decimal_digit decoder replay_path m parser :
  schema_ok (RecordManager.db m) →
  has_game (Path.name replay_path) (RecordManager.db m) = false →
  decoder replay_path = Some parser →
  match RecordManager.process_replay decimal_digit decoder replay_path m with
  | Returned r _ => is_Some r ∧ all_named parser
  | Raised e _ =>
    e = IntegrityError "NOT NULL constraint failed: players.name" ∧ ¬ all_named parser
  end.
Proof.
  destruct m as [d mine]. simpl. intros Hok Hhas Hdec.
  unfold RecordManager.process_replay, mbind at 1, M_bind at 1.
  rewrite on_db_run. unfold game_exists, _connect. rewrite Hhas, Hdec.
  unfold mbind at 1, M_bind at 1.
  destruct (_build_game_data_returns decimal_digit parser (Path.name replay_path)
              {| RecordManager.db := d; RecordManager._my_names := mine |})
    as (gd & -> & Hfile & _).
  unfold mbind at 1, M_bind at 1.
  rewrite on_db_run. unfold insert_game, _connect. rewrite Hfile, Hhas.
  set (m0 := {| RecordManager.db := with_games d _; RecordManager._my_names := mine |}).
  assert (Hok0 : schema_ok (RecordManager.db m0)).
  { apply schema_ok_insert_game; [done|by rewrite Hfile]. }
  assert (Hgid : next_id (g_id <$> games d) ∈ (g_id <$> games (RecordManager.db m0))).
  { simpl. rewrite fmap_app. apply elem_of_app. right. by left. }
  pose proof (_save_players_outcome _ parser m0 Hok0 Hgid) as Hplayers.
  unfold mbind at 1, M_bind at 1.
  destruct (RecordManager._save_players _ parser m0) as [u m2|e m2].
  2:{ destruct Hplayers as [-> Hnot]. split; [done|]. by intros [??]. }
  destruct Hplayers as (Hnamed & Hok2 & Hgames2).
  pose proof (_save_chat_outcome (next_id (g_id <$> games d)) parser m2 Hok2
                ltac:(by rewrite Hgames2)) as Hchat.
  unfold mbind at 1, M_bind at 1.
  destruct (RecordManager._save_chat _ parser m2) as [u' m3|e m3].
  2:{ destruct Hchat as [-> Hnot]. split; [done|]. by intros [??]. }
  simpl. split; [by eexists|done].
Qed.

(** X19. Storing a new, decoded replay in a store that keeps its schema
    succeeds exactly when every decoded participant and every chat entry
    has a name. Otherwise the call raises the NOT NULL failure of
    [players.name]; no other failure is possible, the foreign keys of the
    rows always resolve. *)
Theorem process_replay_fails_only_on_missing_name
    decimal_digit decoder replay_path m parser :
  schema_ok (RecordManager.db m) →
  has_game (Path.name replay_path) (RecordManager.db m) = false →
  decoder replay_path = Some parser →
  (all_named parser ↔
   ∃ gd m1, RecordManager.process_replay decimal_digit decoder replay_path m
            = Returned (Some gd) m1) ∧
  (¬ all_named parser ↔
   ∃ m1, RecordManager.process_replay decimal_digit decoder replay_path m
         = Raised (IntegrityError "NOT NULL constraint failed: players.name") m1).
Proof.
  intros Hok Hhas Hdec.
  pose proof (process_replay_new_outcome decimal_digit decoder replay_path m parser
                Hok Hhas Hdec) as Hout.
  destruct (RecordManager.process_replay decimal_digit decoder replay_path m)
    as [r m1|e m1].
  - destruct Hout as [[gd ->] Hall]. split; split.
    + intros _. by exists gd, m1.
    + done.
    + done.
    + by intros (? & [=]).
  - destruct Hout as [-> Hnot]. split; split.
    + done.
    + by intros (? & ? & [=]).
    + intros _. by exists m1.
    + done.
Qed.

Lemma process_replay_fails_only_on_missing_name_witness :
  let parser := decoded_game (Some "Alice") (Some "Bob") ∅ in
  let decoder := λ _ : Path.t, Some parser in
  (all_named parser ↔
   ∃ gd m1, RecordManager.process_replay ascii_decimal_digit decoder
              (replay_in "replays" "g.rep") new_manager
            = Returned (Some gd) m1) ∧
  (¬ all_named parser ↔
   ∃ m1, RecordManager.process_replay ascii_decimal_digit decoder
           (replay_in "replays" "g.rep") new_manager
         = Raised (IntegrityError "NOT NULL constraint failed: players.name") m1).
Proof.
  intros parser decoder.
  apply (process_replay_fails_only_on_missing_name ascii_decimal_digit decoder
           (replay_in "replays" "g.rep") new_manager parser).
  - apply schema_ok_empty.
  - reflexivity.
  - reflexivity.
Defined.

(** A replay whose loser has no name: the winner's row is written, then the
    call fails. *)
Example process_replay_nameless_example :
  let decoder := λ _ : Path.t, Some (decoded_game (Some "Alice") None ∅) in
  let o := RecordManager.process_replay ascii_decimal_digit decoder
             (replay_in "replays" "g.rep") new_manager in
  returned o = None ∧
  length (game_players (RecordManager.db (final_state o))) = 1%nat ∧
  length (games (RecordManager.db (final_state o))) = 1%nat.
Proof. vm_compute. done. Qed.

(** ** Results stored before a local name is known *)

Lemma get_or_create_player_no_local name d :
  select_my_names d = [] → select_my_names (final_state (get_or_create_player name d)) = [].
Proof.
  intros Hd. unfold get_or_create_player, _connect.
  destruct (List.find _ (players d)); simpl; [done|].
  destruct (List.find _ (aliases d)); simpl; [done|].
  destruct name as [n|]; simpl; [|done].
  unfold select_my_names in *. simpl. rewrite List.filter_app, fmap_app, Hd. done.
Qed.

Lemma on_db_no_local {A} (op : M database A) m :
  (select_my_names (RecordManager.db m) = [] →
   select_my_names (final_state (op (RecordManager.db m))) = []) →
  no_local_names m → no_local_names (final_state (RecordManager.on_db op m)).
Proof.
  destruct m as [d mine]. intros Hop [Hmine Hd]. specialize (Hop Hd).
  rewrite on_db_run. simpl in *. by destruct (op d).
Qed.

Lemma process_replay_no_local decimal_digit decoder replay_path m :
  no_local_names m →
  no_local_names (final_state (RecordManager.process_replay decimal_digit decoder replay_path m)).
Proof.
  intros Hm. unfold RecordManager.process_replay.
  apply (bind_preserves no_local_names); [by apply on_db_no_local|].
  intros [|] s Hs; [done|].
  destruct (decoder replay_path) as [parser|]; [|done].
  apply (bind_preserves no_local_names).
  { by destruct (_build_game_data_returns decimal_digit parser (Path.name replay_path) s)
      as (gd & -> & _). }
  intros gd s1 Hs1. apply (bind_preserves no_local_names).
  { apply on_db_no_local; [|done]. unfold insert_game, _connect.
    by destruct (has_game _ _). }
  intros game_id s2 Hs2. apply (bind_preserves no_local_names).
  { unfold RecordManager._save_players. apply (for_each_preserves no_local_names); [|done].
    intros p s' Hs'. apply (bind_preserves no_local_names).
    - apply on_db_no_local; [|done]. apply get_or_create_player_no_local.
    - intros i s'' Hs''. apply on_db_no_local; [|done].
      unfold insert_game_player, _connect. by destruct (_ && _). }
  intros [] s3 Hs3. apply (bind_preserves no_local_names).
  { unfold RecordManager._save_chat. apply (for_each_preserves no_local_names); [|done].
    intros p s' Hs'. apply (bind_preserves no_local_names).
    - apply on_db_no_local; [|done]. apply get_or_create_player_no_local.
    - intros i s'' Hs''. apply on_db_no_local; [|done].
      unfold insert_chat_message, _connect. by destruct (_ && _). }
  by intros [] s4 Hs4.
Qed.

Lemma _build_game_data_unknown decimal_digit parser replay_file' m :
  no_local_names m →
  ∃ gd, RecordManager._build_game_data decimal_digit parser replay_file' m = Returned gd m ∧
    replay_file gd = replay_file' ∧ my_result gd = Some "unknown".
Proof.
  destruct m as [d mine]. intros [Hmine Hd]. simpl in Hmine, Hd.
  unfold RecordManager._build_game_data.
  destruct (foldl _ _ _) as [winner_race' loser_race'].
  unfold RecordManager._determine_my_result, mbind, M_bind.
  rewrite my_names_run, Hmine, Hd.
  rewrite bool_decide_eq_true_2 by set_solver. by eexists.
Qed.

Lemma process_replay_unknown decimal_digit decoder replay_path m :
  no_local_names m →
  ∃ new,
    games (RecordManager.db
      (final_state (RecordManager.process_replay decimal_digit decoder replay_path m)))
    = games (RecordManager.db m) ++ new ∧
    Forall (λ g : game_row, my_result g = Some "unknown") new.
Proof.
  intros Hno.
  destruct (has_game (Path.name replay_path) (RecordManager.db m)) eqn:Hhas.
  { rewrite process_replay_skip by done. exists []. by rewrite app_nil_r. }
  destruct m as [d mine]. simpl in Hhas.
  unfold RecordManager.process_replay, mbind at 1, M_bind at 1.
  rewrite on_db_run. unfold game_exists, _connect. rewrite Hhas.
  destruct (decoder replay_path) as [parser|]; [|exists []; simpl; by rewrite app_nil_r].
  destruct (_build_game_data_unknown decimal_digit parser (Path.name replay_path)
              {| RecordManager.db := d; RecordManager._my_names := mine |} Hno)
    as (gd & Hbuild & Hfile & Hres).
  unfold mbind at 1, M_bind at 1. rewrite Hbuild.
  unfold mbind at 1, M_bind at 1.
  rewrite on_db_run. unfold insert_game, _connect. rewrite Hfile, Hhas.
  set (m1 := {| RecordManager.db := with_games d _; RecordManager._my_names := mine |}).
  pose proof (_save_players_games (next_id (g_id <$> games d)) parser m1) as Hplayers.
  unfold mbind at 1, M_bind at 1.
  destruct (RecordManager._save_players _ parser m1) as [[] m2|e m2]; simpl in Hplayers.
  2:{ eexists [_]. split; [exact Hplayers|]. by constructor. }
  pose proof (_save_chat_games (next_id (g_id <$> games d)) parser m2) as Hchat.
  unfold mbind at 1, M_bind at 1.
  destruct (RecordManager._save_chat _ parser m2) as [[] m3|e m3]; simpl in Hchat.
  2:{ eexists [_]. split; [simpl; by rewrite Hchat, Hplayers|]. by constructor. }
  eexists [_]. split; [simpl; by rewrite Hchat, Hplayers|]. by constructor.
Qed.

Lemma import_folder_unknown decimal_digit decoder rep_files m :
  no_local_names m →
  no_local_names (final_state (RecordManager.import_folder decimal_digit decoder rep_files m)) ∧
  ∃ new,
    games (RecordManager.db
      (final_state (RecordManager.import_folder decimal_digit decoder rep_files m)))
    = games (RecordManager.db m) ++ new ∧
    Forall (λ g : game_row, my_result g = Some "unknown") new.
Proof.
  revert m. induction rep_files as [|f rest IH]; intros m Hm.
  { split; [done|]. exists []. by rewrite app_nil_r. }
  rewrite import_folder_cons.
  pose proof (process_replay_no_local decimal_digit decoder f m Hm) as Hno.
  destruct (process_replay_unknown decimal_digit decoder f m Hm) as (new1 & Hg1 & Hnew1).
  destruct (RecordManager.process_replay decimal_digit decoder f m) as [r s|e s];
    simpl in Hno, Hg1; [|split; [done|by exists new1]].
  destruct (IH s Hno) as (Hno' & new2 & Hg2 & Hnew2).
  destruct (RecordManager.import_folder decimal_digit decoder rest s) as [c s'|e s'];
    simpl in *; (split; [done|]); exists (new1 ++ new2);
    (split; [by rewrite Hg2, Hg1, app_assoc|by apply Forall_app]).
Qed.

Lemma detect_my_name_games m :
  games (RecordManager.db (final_state (RecordManager.detect_my_name m)))
  = games (RecordManager.db m).
Proof.
  set (P := λ s, games (RecordManager.db s) = games (RecordManager.db m)).
  unfold RecordManager.detect_my_name.
  apply (bind_preserves P); [by apply (on_db_preserves (λ d, games d = _))|].
  intros [|[best_name best_count] rest] s Hs; [done|].
  apply (bind_preserves P); [by apply (on_db_preserves (λ d, games d = _))|].
  intros [|first others] s1 Hs1; [|done].
  destruct (match rest with [] => false | _ => _ end); [done|].
  apply (bind_preserves P); [by apply (on_db_preserves (λ d, games d = _))|].
  intros [] s2 Hs2. apply (bind_preserves P); [done|]. by intros [] s3 Hs3.
Qed.

(** X20. Results stored before a local name is known stay unknown: when no
    name was passed to the manager and no player is marked, every Game row
    that [import_folder] adds has the result ["unknown"], whoever won, and
    no name is local afterwards. A following [detect_my_name], whatever it
    returns and marks, leaves the Game rows as they are: the stored
    results are not brought up to date. *)
Theorem import_without_names_stores_unknown decimal_digit decoder rep_files m :
  no_local_names m →
  let m1 := final_state (RecordManager.import_folder decimal_digit decoder rep_files m) in
  let m2 := final_state (RecordManager.detect_my_name m1) in
  (∃ new,
     games (RecordManager.db m1) = games (RecordManager.db m) ++ new ∧
     Forall (λ g : game_row, my_result g = Some "unknown") new) ∧
  no_local_names m1 ∧
  games (RecordManager.db m2) = games (RecordManager.db m1).
Proof.
  intros Hno m1 m2. subst m1 m2.
  destruct (import_folder_unknown decimal_digit decoder rep_files m Hno) as [Hno' Hnew].
  split_and!; [done|done|apply detect_my_name_games].
Qed.

Lemma import_without_names_stores_unknown_witness :
  let decoder := λ p : Path.t,
    if String.eqb (Path.name p) "a.rep"
    then Some (decoded_game (Some "Alice") (Some "Bob") ∅)
    else Some (decoded_game (Some "Alice") (Some "Carol") ∅) in
  let files := [replay_in "replays" "a.rep"; replay_in "replays" "b.rep"] in
  let m1 := final_state (RecordManager.import_folder ascii_decimal_digit decoder files
                           new_manager) in
  let m2 := final_state (RecordManager.detect_my_name m1) in
  (∃ new,
     games (RecordManager.db m1) = games (RecordManager.db new_manager) ++ new ∧
     Forall (λ g : game_row, my_result g = Some "unknown") new) ∧
  no_local_names m1 ∧
  games (RecordManager.db m2) = games (RecordManager.db m1).
Proof.
  intros decoder files.
  apply (import_without_names_stores_unknown ascii_decimal_digit decoder files new_manager).
  split; reflexivity.
Defined.

(** Two games of Alice are imported and Alice is detected as the local
    name; both stored results stay ["unknown"]. *)
Example import_then_detect_example :
  let decoder := λ p : Path.t,
    if String.eqb (Path.name p) "a.rep"
    then Some (decoded_game (Some "Alice") (Some "Bob") ∅)
    else Some (decoded_game (Some "Alice") (Some "Carol") ∅) in
  let files := [replay_in "replays" "a.rep"; replay_in "replays" "b.rep"] in
  let m1 := final_state (RecordManager.import_folder ascii_decimal_digit decoder files
                           new_manager) in
  let o := RecordManager.detect_my_name m1 in
  returned o = Some (Some "Alice") ∧
  select_my_names (RecordManager.db (final_state o)) = ["Alice"] ∧
  (λ g : game_row, my_result g) <$> games (RecordManager.db (final_state o))
    = [Some "unknown"; Some "unknown"].
Proof. vm_compute. done. Qed.
